(** * OWS::Variant (variant.hpp): a shallow embedding and its properties

  The header implements a C++11 tagged union over a pack of alternative
  types: compile-time metafunctions over the pack (namespace
  [OWS::detail::vrnt]), the exception [bad_variant_access], and the class
  template [Variant<Ts...>] with a raw buffer [m_Raw], a discriminant
  [m_Idx] and three per-alternative dispatch tables.

  Alternative types are elements of a type [ty] compared by [std::is_same]
  (decidable equality).  Objects live in a store of [Variant] instances
  addressed by their [this] pointer, so that two pointers may alias. *)

From stdpp Require Import base numbers list gmap strings pretty.

(** ** Namespace [OWS::detail::vrnt] *)

Module vrnt.
Section metafunctions.
Context {ty : Type} {ty_eq_dec : EqDecision ty}.

(** [std::is_same<R, T>::value] *)
Definition is_same (R T : ty) : bool := bool_decide (R = T).

(** [CTMM<T, A, B, Cs...>]: compile-time minimum and maximum. *)
Fixpoint s_min (A B : Z) (Cs : list Z) : Z :=
  match Cs with
  | [] => if (A >? B)%Z then B else A
  | C :: Cs' => s_min (if (A >? B)%Z then B else A) C Cs'
  end.

Fixpoint s_max (A B : Z) (Cs : list Z) : Z :=
  match Cs with
  | [] => if (A >? B)%Z then A else B
  | C :: Cs' => s_max (if (A >? B)%Z then A else B) C Cs'
  end.

(** [is_any<R, T, Ts...>]: pre-C++17 disjunction of [is_same<R, _>]. *)
Fixpoint is_any (R T : ty) (Ts : list ty) : bool :=
  match Ts with
  | [] => is_same R T
  | T' :: Ts' => is_same R T || is_any R T' Ts'
  end.

(** [is_all<R, T, Ts...>]: pre-C++17 conjunction of [is_same<R, _>]. *)
Fixpoint is_all (R T : ty) (Ts : list ty) : bool :=
  match Ts with
  | [] => is_same R T
  | T' :: Ts' => is_same R T && is_all R T' Ts'
  end.

(** [is_unique<T, Ts...>]: no duplicate types in the pack. *)
Fixpoint is_unique (T : ty) (Ts : list ty) : bool :=
  match Ts with
  | [] => true
  | T' :: Ts' => negb (is_any T T' Ts') && is_unique T' Ts'
  end.

(** [IthType<I, T, Ts...>::type]; [None] when no specialisation applies
    (the instantiation is ill-formed). *)
Fixpoint IthType (I : nat) (T : ty) (Ts : list ty) : option ty :=
  match I with
  | 0 => Some T
  | S I' => match Ts with
            | [] => None
            | T' :: Ts' => IthType I' T' Ts'
            end
  end.

(** [IFromType<I, R, T, Ts...>::value].  The partial specialisation
    [IFromType<I, R, R, Ts...>] answers [I]; the primary template demands
    [is_any<R, T, Ts...>] through [enable_if] and recurses on [I + 1];
    with an empty rest there is nothing to recurse on. *)
Fixpoint IFromType (I : nat) (R T : ty) (Ts : list ty) : option nat :=
  if is_same R T then Some I
  else if is_any R T Ts then
    match Ts with
    | [] => None
    | T' :: Ts' => IFromType (S I) R T' Ts'
    end
  else None.

(** The metafunctions applied to a whole pack [Ts...]: each needs at least
    one type to match its template head. *)
Definition is_any_pack (R : ty) (Ts : list ty) : option bool :=
  match Ts with [] => None | T :: Ts' => Some (is_any R T Ts') end.

Definition is_unique_pack (Ts : list ty) : option bool :=
  match Ts with [] => None | T :: Ts' => Some (is_unique T Ts') end.

Definition IthType_pack (I : nat) (Ts : list ty) : option ty :=
  match Ts with [] => None | T :: Ts' => IthType I T Ts' end.

Definition IFromType_pack (R : ty) (Ts : list ty) : option nat :=
  match Ts with [] => None | T :: Ts' => IFromType 0 R T Ts' end.

(** [CTMM<size_t, sizeof(Ts)...>::s_max] needs two values at least. *)
Definition s_max_pack (sizes : list Z) : option Z :=
  match sizes with
  | A :: B :: Cs => Some (s_max A B Cs)
  | _ => None
  end.

(** Instantiating the class template [Variant<Ts...>]: the
    [static_assert] on [is_unique<Ts...>] and the member [s_RawSize] must
    both be well-formed; the result is [s_RawSize]. *)
Definition Variant_instantiate (sizeof : ty → Z) (Ts : list ty) : option Z :=
  match is_unique_pack Ts with
  | Some true => s_max_pack (sizeof <$> Ts)
  | _ => None
  end.

End metafunctions.
End vrnt.

(** ** Objects, storage and the instantiation environment *)

(** The raw buffer [m_Raw], seen through the object that was placed in it:
    nothing yet (the zero-filled [char] array), an object within its
    lifetime, or the bytes an object left behind when its destructor ran. *)
Inductive storage (ty val : Type) : Type :=
| Raw
| Live (T : ty) (v : val)
| Dead (T : ty) (v : val).
Arguments Raw {ty val}.
Arguments Live {ty val} T v.
Arguments Dead {ty val} T v.

(** Result of running a constructor of an alternative type. *)
Inductive built (E X : Type) : Type :=
| Built (x : X)
| Fails (e : E).
Arguments Built {E X} x.
Arguments Fails {E X} e.

(** What an instantiation [Variant<Ts...>] is made of: the object types of
    the program with [std::is_same] on them, the pack [Ts], and the
    constructors of the alternative types.  [copy_construct T src] is
    [T{ src }] for [src] a [T const&]; [move_construct T src] is [T{ src }]
    for a [T&&] and also gives the value left in the source;
    [args_construct] covers every other argument list.  The source is
    passed as the storage the reference designates. *)
Class instantiation : Type := {
  ty : Type;
  ty_eq_dec :: EqDecision ty;
  val : Type;
  args : Type;
  E : Type;
  Ts : list ty;
  copy_construct : ty → storage ty val → built E val;
  move_construct : ty → storage ty val → built E (val * val);
  args_construct : ty → args → built E val;
}.

Section Variant.
Context {W : instantiation}.

(** [class Variant]: the data members. *)
Record Variant : Type := mkVariant {
  m_Raw : storage ty val;
  m_Idx : N;
}.

(** Lifetime events of alternative objects, in program order. *)
Inductive event : Type :=
| Constructed (p : N) (T : ty) (v : val)
| Destroyed (p : N) (T : ty) (v : val).

(** The instances that exist, by address, and the events so far. *)
Record state : Type := mkState {
  heap : gmap N Variant;
  trace : list event;
}.

(** [class bad_variant_access] and the exceptions of alternative types. *)
Inductive exn : Type :=
| bad_variant_access (m_msg : string)
| alternative_failure (e : E).

Inductive fault : Type :=
| std_terminate
| undefined_behaviour
| ill_formed.

Inductive outcome (R : Type) : Type :=
| Ret (r : R) (s : state)
| Throw (e : exn) (s : state)
| Fault (f : fault).
Arguments Ret {R} r s.
Arguments Throw {R} e s.
Arguments Fault {R} f.

(** A [T&] into the buffer of the instance at [ref_obj]:
    [reinterpret_cast<T&>(m_Raw)]. *)
Record ref : Type := mkref {
  ref_obj : N;
  ref_ty : ty;
}.

(** What a constructor argument refers to: an object of the caller, or the
    buffer of an instance. *)
Inductive source : Type :=
| External (T : ty) (v : val)
| Buffer (p : N).

Inductive refkind : Type := lvalue | rvalue.

(** [Args&&... args] of [emplace]: one forwarded reference, or anything else. *)
Inductive arg : Type :=
| Forward (k : refkind) (src : source)
| Direct (a : args).

(** *** Control: state, exceptions and faults *)

Definition M (R : Type) : Type := state → outcome R.

Definition ret {R} (r : R) : M R := λ s, Ret r s.

Definition bind {R R'} (m : M R) (k : R → M R') : M R' :=
  λ s, match m s with
       | Ret r s' => k r s'
       | Throw e s' => Throw e s'
       | Fault f => Fault f
       end.

Definition throw {R} (e : exn) : M R := λ s, Throw e s.

Definition fail {R} (f : fault) : M R := λ _, Fault f.

(** An exception leaving a [noexcept] function calls [std::terminate]. *)
Definition noexcept {R} (m : M R) : M R :=
  λ s, match m s with
       | Throw _ _ => Fault std_terminate
       | o => o
       end.

#[local] Notation "x <- m ;; k" := (bind m (λ x, k))
  (at level 100, m at next level, right associativity).
#[local] Notation "m ;;; k" := (bind m (λ _, k))
  (at level 100, right associativity).

Definition load (p : N) : M Variant :=
  λ s, match heap s !! p with
       | Some x => Ret x s
       | None => Fault undefined_behaviour
       end.

Definition store (p : N) (x : Variant) : M unit :=
  λ s, Ret () (mkState (<[p:=x]> (heap s)) (trace s)).

Definition log (ev : event) : M unit :=
  λ s, Ret () (mkState (heap s) (trace s ++ [ev])).

Definition alloc (p : N) (x : Variant) : M unit :=
  λ s, match heap s !! p with
       | None => Ret () (mkState (<[p:=x]> (heap s)) (trace s))
       | Some _ => Fault undefined_behaviour
       end.

Definition free (p : N) : M unit :=
  λ s, Ret () (mkState (delete p (heap s)) (trace s)).

Definition set_Idx (p : N) (i : N) : M unit :=
  x <- load p ;; store p (mkVariant (m_Raw x) i).

Definition set_Raw (p : N) (st : storage ty val) : M unit :=
  x <- load p ;; store p (mkVariant st (m_Idx x)).

(** Compile-time requirements: [enable_if] and constants that must exist. *)
Definition enable_if (b : option bool) : M unit :=
  match b with
  | Some true => ret ()
  | _ => fail ill_formed
  end.

Definition constant {R} (c : option R) : M R :=
  match c with
  | Some r => ret r
  | None => fail ill_formed
  end.

(** *** [class Variant]: members *)

(** [std::numeric_limits<unsigned>::max()], for a 32-bit [unsigned]. *)
Definition s_Valueless : N := 4294967295.

(** Conversion of a [size_t] constant to [unsigned]. *)
Definition to_unsigned (n : nat) : N := (N.of_nat n `mod` 4294967296)%N.

Definition index (this : N) : M N :=
  x <- load this ;; ret (m_Idx x).

Definition valueless (this : N) : M bool :=
  x <- load this ;; ret (m_Idx x =? s_Valueless)%N.

Definition holds_alternative (T : ty) (this : N) : M bool :=
  typeIdx <- constant (vrnt.IFromType_pack T Ts) ;;
  x <- load this ;;
  ret (N.of_nat typeIdx =? m_Idx x)%N.

Definition get_if (T : ty) (this : N) : M (option ref) :=
  enable_if (vrnt.is_any_pack T Ts) ;;;
  typeIdx <- constant (vrnt.IFromType_pack T Ts) ;;
  x <- load this ;;
  ret (if (N.of_nat typeIdx =? m_Idx x)%N then Some (mkref this T) else None).

Definition get_if_I (I : nat) (this : N) : M (option ref) :=
  enable_if (Some (I <? length Ts)) ;;;
  T <- constant (vrnt.IthType_pack I Ts) ;;
  x <- load this ;;
  ret (if (N.of_nat I =? m_Idx x)%N then Some (mkref this T) else None).

(** The constructor of [bad_variant_access]: [m_msg] starts as the prefix
    and every argument is appended with [+=]. *)
Definition make_bad_variant_access (parts : list string) : exn :=
  bad_variant_access (foldl String.append "bad_variant_access: " parts).

Definition what (e : exn) : option string :=
  match e with
  | bad_variant_access m_msg => Some m_msg
  | alternative_failure _ => None
  end.

Definition get (T : ty) (this : N) : M ref :=
  enable_if (vrnt.is_any_pack T Ts) ;;;
  typeIdx <- constant (vrnt.IFromType_pack T Ts) ;;
  x <- load this ;;
  if negb (N.of_nat typeIdx =? m_Idx x)%N
  then throw (make_bad_variant_access
                ["get<"; pretty typeIdx; "> on variant "; pretty (m_Idx x)])
  else ret (mkref this T).

Definition get_I (I : nat) (this : N) : M ref :=
  enable_if (Some (I <? length Ts)) ;;;
  T <- constant (vrnt.IthType_pack I Ts) ;;
  x <- load this ;;
  if negb (N.of_nat I =? m_Idx x)%N
  then throw (make_bad_variant_access
                ["get<"; pretty I; "> on variant "; pretty (m_Idx x)])
  else ret (mkref this T).

(** [r.~T()]: ends the lifetime of the [T] object the reference designates.
    Destructors of alternatives do not throw.  There must be such an
    object. *)
Definition destroy_at (r : ref) : M unit :=
  x <- load (ref_obj r) ;;
  match m_Raw x with
  | Live T v =>
      if decide (T = ref_ty r)
      then store (ref_obj r) (mkVariant (Dead T v) (m_Idx x)) ;;;
           log (Destroyed (ref_obj r) T v)
      else fail undefined_behaviour
  | _ => fail undefined_behaviour
  end.

Definition TDestructor (T : ty) (thisPtr : N) : M unit :=
  noexcept (r <- get T thisPtr ;; destroy_at r).

Definition s_Destructors : list (N → M unit) := TDestructor <$> Ts.

(** [table[i]]: reading past the end of a table is undefined. *)
Definition subscript {F} (table : list F) (i : N) : M F :=
  match table !! N.to_nat i with
  | Some f => ret f
  | None => fail undefined_behaviour
  end.

Definition read (src : source) : M (storage ty val) :=
  match src with
  | External T v => ret (Live T v)
  | Buffer p => x <- load p ;; ret (m_Raw x)
  end.

(** The value a move constructor leaves in its source. *)
Definition set_val (st : storage ty val) (v' : val) : storage ty val :=
  match st with
  | Raw => Raw
  | Live T _ => Live T v'
  | Dead T _ => Dead T v'
  end.

Definition moved_from (src : source) (v' : val) : M unit :=
  match src with
  | External _ _ => ret ()
  | Buffer p => x <- load p ;; store p (mkVariant (set_val (m_Raw x) v') (m_Idx x))
  end.

Definition construct_at (this : N) (T : ty) (v : val) : M ref :=
  set_Raw this (Live T v) ;;;
  log (Constructed this T v) ;;;
  ret (mkref this T).

Definition thrown {R} (e : E) : M R := throw (alternative_failure e).

(** [T{ std::forward<Args>(args)... }]: the constructor reads its
    arguments and decides the value of the new object; it may throw.  A move
    constructor also decides the value it leaves in its source. *)
Definition run_constructor (T : ty) (a : arg) : M (val * option val) :=
  match a with
  | Forward lvalue src =>
      st <- read src ;;
      match copy_construct T st with
      | Built v => ret (v, None)
      | Fails e => thrown e
      end
  | Forward rvalue src =>
      st <- read src ;;
      match move_construct T st with
      | Built (v, v') => ret (v, Some v')
      | Fails e => thrown e
      end
  | Direct a' =>
      match args_construct T a' with
      | Built v => ret (v, None)
      | Fails e => thrown e
      end
  end.

(** What a move constructor does last: it writes the value it leaves to
    its source. *)
Definition reset_source (a : arg) (left : option val) : M unit :=
  match a, left with
  | Forward rvalue src, Some v' => moved_from src v'
  | _, _ => ret ()
  end.

(** [::new (reinterpret_cast<T*>(m_Raw)) T{ std::forward<Args>(args)... }]:
    the constructor fills the buffer with the new object, then resets the
    source it moved from; when that source is this very buffer, what stays
    is what was written last. *)
Definition placement_new (T : ty) (a : arg) (this : N) : M ref :=
  built <- run_constructor T a ;;
  r <- construct_at this T built.1 ;;
  reset_source a built.2 ;;;
  ret r.

Definition emplace (T : ty) (a : arg) (this : N) : M ref :=
  enable_if (vrnt.is_any_pack T Ts) ;;;
  x <- load this ;;
  (if negb (s_Valueless =? m_Idx x)%N
   then f <- subscript s_Destructors (m_Idx x) ;; f this
   else ret ()) ;;;
  typeIdx <- constant (vrnt.IFromType_pack T Ts) ;;
  set_Idx this (to_unsigned typeIdx) ;;;
  placement_new T a this.

(** [TAssign<T const&>] and [TAssign<T&&>]: the argument of [emplace] is
    the buffer of [rhsPtr], cast to the reference type. *)
Definition TAssign (k : refkind) (T : ty) (lhsPtr rhsPtr : N) : M unit :=
  _ <- emplace T (Forward k (Buffer rhsPtr)) lhsPtr ;; ret ().

Definition s_CopyAssigns : list (N → N → M unit) := TAssign lvalue <$> Ts.
Definition s_MoveAssigns : list (N → N → M unit) := TAssign rvalue <$> Ts.

(** [~Variant() noexcept] *)
Definition Variant_dtor (this : N) : M unit :=
  noexcept (
    x <- load this ;;
    if (s_Valueless =? m_Idx x)%N then ret ()
    else f <- subscript s_Destructors (m_Idx x) ;; f this).

(** The end of an instance: its destructor, then its storage goes. *)
Definition destroy (this : N) : M unit :=
  Variant_dtor this ;;; free this.

(** [Variant() = default], with the default member initialisers. *)
Definition Variant_default (this : N) : M unit :=
  alloc this (mkVariant Raw s_Valueless).

(** A delegating constructor: once the target constructor [Variant{}] has
    completed, an exception leaving the body runs the destructor of the
    object before it propagates. *)
Definition delegating (this : N) (body : M unit) : M unit :=
  λ s, match body s with
       | Throw e s' =>
           match destroy this s' with
           | Ret _ s'' => Throw e s''
           | Throw e' s'' => Throw e' s''
           | Fault f => Fault f
           end
       | o => o
       end.

(** [explicit Variant(Variant const& other)] *)
Definition Variant_copy (this other : N) : M unit :=
  Variant_default this ;;;
  delegating this (
    o <- load other ;;
    if (s_Valueless =? m_Idx o)%N then ret ()
    else f <- subscript s_CopyAssigns (m_Idx o) ;; f this other).

(** [explicit Variant(Variant&& other) noexcept]: it delegates to
    [Variant{}] as well, but whatever its body throws stops at the
    [noexcept] boundary, in [std::terminate]. *)
Definition Variant_move (this other : N) : M unit :=
  noexcept (
    Variant_default this ;;;
    o <- load other ;;
    if (s_Valueless =? m_Idx o)%N then ret ()
    else
      f <- subscript s_MoveAssigns (m_Idx o) ;;
      f this other ;;;
      set_Idx other s_Valueless).

(** [explicit Variant(T&& variant)], [T] deduced from the argument. *)
Definition Variant_value (T : ty) (k : refkind) (src : source) (this : N) : M unit :=
  Variant_default this ;;;
  delegating this (_ <- emplace T (Forward k src) this ;; ret ()).

(** [Variant& operator=(Variant const& other)] *)
Definition assign_copy (this other : N) : M unit :=
  o <- load other ;;
  if (s_Valueless =? m_Idx o)%N then
    x <- load this ;;
    (if negb (s_Valueless =? m_Idx x)%N
     then f <- subscript s_Destructors (m_Idx x) ;; f this
     else ret ()) ;;;
    set_Idx this s_Valueless
  else
    f <- subscript s_CopyAssigns (m_Idx o) ;; f this other.

(** [Variant& operator=(Variant&& other) noexcept] *)
Definition assign_move (this other : N) : M unit :=
  noexcept (
    o <- load other ;;
    if (s_Valueless =? m_Idx o)%N then
      x <- load this ;;
      (if negb (s_Valueless =? m_Idx x)%N
       then f <- subscript s_Destructors (m_Idx x) ;; f this
       else ret ()) ;;;
      set_Idx this s_Valueless
    else
      f <- subscript s_MoveAssigns (m_Idx o) ;;
      f this other ;;;
      set_Idx other s_Valueless).

(** [Variant& operator=(T&& rhs) noexcept] *)
Definition assign_value (T : ty) (k : refkind) (src : source) (this : N) : M unit :=
  noexcept (_ <- emplace T (Forward k src) this ;; ret ()).

(** *** States of an instance *)

(** The [static_assert] of the class: the pack has no duplicate types. *)
Definition pack_unique : Prop := vrnt.is_unique_pack Ts = Some true.

(** Every index of the pack is an [unsigned] below the sentinel. *)
Definition pack_fits : Prop := (N.of_nat (length Ts) ≤ s_Valueless)%N.

(** The instance holds alternative [i], of type [T], with value [v]. *)
Definition holds (x : Variant) (i : nat) (T : ty) (v : val) : Prop :=
  m_Idx x = N.of_nat i ∧ Ts !! i = Some T ∧ m_Raw x = Live T v.

(** The discriminant is the sentinel or the index of an alternative. *)
Definition discriminant_ok (x : Variant) : Prop :=
  m_Idx x = s_Valueless ∨ (m_Idx x < N.of_nat (length Ts))%N.


(** With the sentinel as discriminant the buffer has no live object. *)
Definition valueless_empty (x : Variant) : Prop :=
  m_Idx x = s_Valueless → ∀ T v, m_Raw x ≠ Live T v.





(** What holds after a computation from [s]: [Q] when it returns, [Qe] when
    it throws. *)
Definition post {R} (m : M R) (s : state)
    (Q : R → state → Prop) (Qe : exn → state → Prop) : Prop :=
  match m s with
  | Ret r s' => Q r s'
  | Throw e s' => Qe e s'
  | Fault _ => True
  end.

(** What an instance holds when [emplace] is called on it: nothing (it is
    valueless) or a value [v0] of an alternative [T0]; the events its
    destruction adds, and the buffer it leaves. *)
Definition held (x : Variant) (old : option (ty * val)) : Prop :=
  match old with
  | None => m_Idx x = s_Valueless
  | Some (T0, v0) => ∃ j, holds x j T0 v0
  end.

Definition destroyed (this : N) (old : option (ty * val)) : list event :=
  match old with
  | None => []
  | Some (T0, v0) => [Destroyed this T0 v0]
  end.

Definition vacated (x : Variant) (old : option (ty * val)) : storage ty val :=
  match old with
  | None => m_Raw x
  | Some (T0, v0) => Dead T0 v0
  end.

(** *** Sequences of public operations *)

Inductive call : Type :=
| call_default (this : N)
| call_value (T : ty) (k : refkind) (src : source) (this : N)
| call_copy (this other : N)
| call_move (this other : N)
| call_assign_copy (this other : N)
| call_assign_move (this other : N)
| call_assign_value (T : ty) (k : refkind) (src : source) (this : N)
| call_emplace (T : ty) (a : arg) (this : N)
| call_index (this : N)
| call_valueless (this : N)
| call_holds_alternative (T : ty) (this : N)
| call_get_if (T : ty) (this : N)
| call_get_if_I (I : nat) (this : N)
| call_get (T : ty) (this : N)
| call_get_I (I : nat) (this : N)
| call_destroy (this : N).

Definition run (c : call) : M unit :=
  match c with
  | call_default this => Variant_default this
  | call_value T k src this => Variant_value T k src this
  | call_copy this other => Variant_copy this other
  | call_move this other => Variant_move this other
  | call_assign_copy this other => assign_copy this other
  | call_assign_move this other => assign_move this other
  | call_assign_value T k src this => assign_value T k src this
  | call_emplace T a this => _ <- emplace T a this ;; ret ()
  | call_index this => _ <- index this ;; ret ()
  | call_valueless this => _ <- valueless this ;; ret ()
  | call_holds_alternative T this => _ <- holds_alternative T this ;; ret ()
  | call_get_if T this => _ <- get_if T this ;; ret ()
  | call_get_if_I i this => _ <- get_if_I i this ;; ret ()
  | call_get T this => _ <- get T this ;; ret ()
  | call_get_I i this => _ <- get_I i this ;; ret ()
  | call_destroy this => destroy this
  end.

Definition initial : state := mkState ∅ [].

(** States reached by calls that return, or that throw a
    [bad_variant_access] which the caller catches. *)
Inductive reachable : state → Prop :=
| reachable_initial : reachable initial
| reachable_call s c s' : reachable s → run c s = Ret () s' → reachable s'
| reachable_caught s c m_msg s' :
    reachable s → run c s = Throw (bad_variant_access m_msg) s' → reachable s'.

(** States reached when the caller catches whatever a call throws. *)
Inductive reachable_catching : state → Prop :=
| catching_initial : reachable_catching initial
| catching_call s c s' :
    reachable_catching s → run c s = Ret () s' → reachable_catching s'
| catching_caught s c e s' :
    reachable_catching s → run c s = Throw e s' → reachable_catching s'.

(** Every discriminant of the store is the sentinel or an index. *)
Definition heap_indexed (s : state) : Prop :=
  ∀ p x, heap s !! p = Some x → discriminant_ok x.


(** *** Instances that were moved from *)

(** The instance at [p] exists and its discriminant is not the sentinel. *)
Definition active (p : N) (s : state) : bool :=
  match heap s !! p with
  | Some x => negb (s_Valueless =? m_Idx x)%N
  | None => false
  end.

(** The instances that a move has emptied, after the call [c] made in state
    [s]: the source of a move construction or of a move assignment joins
    them when it held a value; an instance leaves them when it is given a
    value (by [emplace] or by an assignment from a value or from an
    instance that holds one) and when it is destroyed. *)
Definition track (c : call) (s : state) (moved : gset N) : gset N :=
  match c with
  | call_move this other | call_assign_move this other =>
      if active other s then {[other]} ∪ (moved ∖ {[this]}) else moved
  | call_assign_copy this other =>
      if active other s then moved ∖ {[this]} else moved
  | call_assign_value _ _ _ this | call_emplace _ _ this | call_destroy this =>
      moved ∖ {[this]}
  | _ => moved
  end.

(** The states of [reachable], each with the instances a move has
    emptied. *)
Inductive reachable_tracking : state → gset N → Prop :=
| tracking_initial : reachable_tracking initial ∅
| tracking_call s moved c s' :
    reachable_tracking s moved → run c s = Ret () s' →
    reachable_tracking s' (track c s moved)
| tracking_caught s moved c m_msg s' :
    reachable_tracking s moved → run c s = Throw (bad_variant_access m_msg) s' →
    reachable_tracking s' moved.





End Variant.

Arguments Ret {W R} r s.
Arguments Throw {W R} e s.
Arguments Fault {W R} f.
Arguments s_Valueless : simpl never.
Arguments to_unsigned : simpl never.

Notation "x <- m ;; k" := (bind m (λ x, k))
  (at level 100, m at next level, right associativity).
Notation "m ;;; k" := (bind m (λ _, k))
  (at level 100, right associativity).

(** ** A concrete program: the scenario of the documentation *)

Inductive cxx_type : Type :=
| c_bool | c_char | c_int | c_float | c_double | c_string | c_fragile.

#[global] Instance cxx_type_eq_dec : EqDecision cxx_type.
Proof. solve_decision. Defined.

(** Values are written as text.  Copying yields the same text; moving
    yields it too and leaves the source empty.  [c_fragile] is a class whose
    copy and move constructors throw; constructing any type from a negative
    count throws (as [std::string(count, ch)] does on a bad length). *)
Definition text_of (st : storage cxx_type string) : string :=
  match st with
  | Raw => ""
  | Live _ v => v
  | Dead _ v => v
  end.

Definition demo_copy (T : cxx_type) (st : storage cxx_type string) : built string string :=
  match T with
  | c_fragile => Fails "fragile"
  | _ => Built (text_of st)
  end.

Definition demo_move (T : cxx_type) (st : storage cxx_type string)
  : built string (string * string) :=
  match T with
  | c_fragile => Fails "fragile"
  | _ => Built (text_of st, "")
  end.

Definition demo_args (T : cxx_type) (n : Z) : built string string :=
  if (n <? 0)%Z then Fails "length_error" else Built (pretty n).

(** [Variant<int, std::string, double, fragile>] *)
Definition demo : instantiation := {|
  ty := cxx_type;
  val := string;
  args := Z;
  E := string;
  Ts := [c_int; c_string; c_double; c_fragile];
  copy_construct := demo_copy;
  move_construct := demo_move;
  args_construct := demo_args;
|}.

Section demo_states.
#[local] Existing Instance demo.

(** An instance at address 1 holding the [int] 42, as
    [Variant<...> a{ 42 }] leaves it. *)
Definition demo_int : state (W:=demo) :=
  mkState {[ 1%N := mkVariant (Live c_int "42") 0 ]} [Constructed 1 c_int "42"].

(** An instance at address 1 holding the string "hi". *)
Definition demo_string : state (W:=demo) :=
  mkState {[ 1%N := mkVariant (Live c_string "hi") 1 ]} [Constructed 1 c_string "hi"].

(** An instance at address 1 holding a [fragile], and a valueless one at
    address 2. *)
Definition demo_fragile : state (W:=demo) :=
  mkState (<[ 2%N := mkVariant Raw s_Valueless ]>
             {[ 1%N := mkVariant (Live c_fragile "f") 3 ]})
          [Constructed 1 c_fragile "f"].

(** [demo_int] after [a.emplace<std::string>(-1, 'x')] has thrown. *)
Definition demo_failed : state (W:=demo) :=
  mkState {[ 1%N := mkVariant (Dead c_int "42") 1 ]}
          [Constructed 1 c_int "42"; Destroyed 1 c_int "42"].

(** A [fragile] at address 1 and the [int] 42 at address 2. *)
Definition demo_fragile_pair : state (W:=demo) :=
  mkState (<[ 2%N := mkVariant (Live c_int "42") 0 ]>
             {[ 1%N := mkVariant (Live c_fragile "f") 3 ]})
          [Constructed 1 c_fragile "f"; Constructed 2 c_int "42"].

(** [demo_fragile_pair] after the copy assignment [b = a] has thrown. *)
Definition demo_fragile_failed : state (W:=demo) :=
  mkState (<[ 2%N := mkVariant (Dead c_int "42") 3 ]>
             {[ 1%N := mkVariant (Live c_fragile "f") 3 ]})
          [Constructed 1 c_fragile "f"; Constructed 2 c_int "42";
           Destroyed 2 c_int "42"].




(** Two instances: a string at address 1, an [int] at address 2. *)
Definition demo_pair : state (W:=demo) :=
  mkState (<[ 2%N := mkVariant (Live c_int "42") 0 ]>
             {[ 1%N := mkVariant (Live c_string "hi") 1 ]})
          [Constructed 1 c_string "hi"; Constructed 2 c_int "42"].

End demo_states.

(** [sizeof] on a common 64-bit platform. *)
Definition demo_sizeof (T : cxx_type) : Z :=
  match T with
  | c_bool | c_char | c_fragile => 1
  | c_int | c_float => 4
  | c_double => 8
  | c_string => 32
  end.

(** * Properties *)

(** ** The metafunctions *)

Section metafunction_facts.
Context {ty : Type} {ty_eq_dec : EqDecision ty}.
Implicit Types (R T : ty) (Ts : list ty).


Lemma is_same_true R T : vrnt.is_same R T = true ↔ R = T.
Proof. unfold vrnt.is_same. by rewrite bool_decide_eq_true. Qed.

Lemma is_any_elem_of R T Ts : vrnt.is_any R T Ts = true ↔ R ∈ T :: Ts.
Proof.
  revert T. induction Ts as [|T' Ts' IH]; intros T; simpl.
  - by rewrite is_same_true, list_elem_of_singleton.
  - by rewrite orb_true_iff, is_same_true, IH, (elem_of_cons (T' :: Ts')).
Qed.

Lemma is_unique_NoDup T Ts : vrnt.is_unique T Ts = true ↔ NoDup (T :: Ts).
Proof.
  revert T. induction Ts as [|T' Ts' IH]; intros T; simpl.
  - split; [intros _; apply NoDup_singleton | done].
  - rewrite andb_true_iff, negb_true_iff, IH, (NoDup_cons T).
    rewrite <- not_true_iff_false, is_any_elem_of. tauto.
Qed.

Lemma IthType_lookup I T Ts : vrnt.IthType I T Ts = (T :: Ts) !! I.
Proof.
  revert T Ts. induction I as [|I IH]; intros T Ts; [done|].
  destruct Ts as [|T' Ts']; simpl; [done | apply IH].
Qed.

Lemma IthType_pack_lookup I Ts : vrnt.IthType_pack I Ts = Ts !! I.
Proof. destruct Ts; [done | apply IthType_lookup]. Qed.

Lemma IFromType_lookup I R T Ts j :
  vrnt.IFromType I R T Ts = Some j →
  ∃ k, j = I + k ∧ (T :: Ts) !! k = Some R.
Proof.
  revert I T. induction Ts as [|T' Ts' IH]; intros I T; cbn [vrnt.IFromType vrnt.is_any];
    destruct (vrnt.is_same R T) eqn:E.
  - apply is_same_true in E as ->. intros [= <-]. exists 0. split; [lia | done].
  - done.
  - apply is_same_true in E as ->. intros [= <-]. exists 0. split; [lia | done].
  - cbn [orb]. destruct (vrnt.is_any R T' Ts'); [|done].
    intros (k & -> & Hk)%IH. exists (S k). split; [lia | done].
Qed.

Lemma IFromType_is_Some I R T Ts :
  vrnt.is_any R T Ts = true → is_Some (vrnt.IFromType I R T Ts).
Proof.
  revert I T. induction Ts as [|T' Ts' IH]; intros I T; cbn [vrnt.IFromType vrnt.is_any];
    destruct (vrnt.is_same R T); cbn [orb]; eauto; try done.
  intros HR. rewrite HR. by apply IH.
Qed.

Lemma IFromType_NoDup I R T Ts k :
  NoDup (T :: Ts) → (T :: Ts) !! k = Some R → vrnt.IFromType I R T Ts = Some (I + k).
Proof.
  revert I T k. induction Ts as [|T' Ts' IH]; intros I T k Hnd Hk;
    cbn [vrnt.IFromType vrnt.is_any]; destruct (vrnt.is_same R T) eqn:E.
  - apply is_same_true in E as ->.
    destruct k as [|k]; [f_equal; lia | done].
  - destruct k as [|k]; [|done]. simplify_eq/=.
    by rewrite (proj2 (is_same_true R R)) in E.
  - apply is_same_true in E as ->. destruct k as [|k]; [f_equal; lia|].
    apply NoDup_cons in Hnd as [HT _]. exfalso. apply HT.
    eapply list_elem_of_lookup_2. exact Hk.
  - destruct k as [|k].
    + simplify_eq/=. by rewrite (proj2 (is_same_true R R)) in E.
    + apply NoDup_cons in Hnd as [_ Hnd]. cbn [orb]. simpl in Hk.
      assert (vrnt.is_any R T' Ts' = true) as ->.
      { apply is_any_elem_of. eapply list_elem_of_lookup_2. exact Hk. }
      rewrite (IH (S I) T' k Hnd Hk). f_equal; lia.
Qed.

Lemma IFromType_pack_lookup R Ts j :
  vrnt.IFromType_pack R Ts = Some j → Ts !! j = Some R.
Proof.
  destruct Ts as [|T Ts']; [done|]. simpl.
  intros (k & -> & Hk)%IFromType_lookup. done.
Qed.

Lemma IFromType_pack_NoDup R Ts k :
  NoDup Ts → Ts !! k = Some R → vrnt.IFromType_pack R Ts = Some k.
Proof.
  destruct Ts as [|T Ts']; [done|]. intros Hnd Hk.
  apply (IFromType_NoDup 0 R T Ts' k Hnd Hk).
Qed.

Lemma IFromType_pack_is_Some R Ts :
  vrnt.is_any_pack R Ts = Some true → is_Some (vrnt.IFromType_pack R Ts).
Proof.
  destruct Ts as [|T Ts']; [done|]. intros [= HR]. by apply IFromType_is_Some.
Qed.


(** C8: [is_unique<T, Ts...>::value] is true exactly when no type occurs
    at two positions of the pack [T, Ts...]; when it is false the
    [static_assert] of the class rejects the instantiation of
    [Variant<T, Ts...>]; a pack of two or more distinct types is accepted. *)
Theorem is_unique_iff_no_duplicate T Ts :
  (vrnt.is_unique T Ts = true ↔
   ∀ i j R, (T :: Ts) !! i = Some R → (T :: Ts) !! j = Some R → i = j) ∧
  (∀ sizeof, vrnt.is_unique T Ts = false →
             vrnt.Variant_instantiate sizeof (T :: Ts) = None) ∧
  (∀ sizeof T' Ts', Ts = T' :: Ts' → vrnt.is_unique T Ts = true →
             is_Some (vrnt.Variant_instantiate sizeof (T :: Ts))).
Proof.
  split; [|split].
  - rewrite is_unique_NoDup. apply NoDup_alt.
  - intros sizeof HU. unfold vrnt.Variant_instantiate. simpl. by rewrite HU.
  - intros sizeof T' Ts' -> HU. unfold vrnt.Variant_instantiate.
    cbn [vrnt.is_unique_pack]. rewrite HU. simpl. eauto.
Qed.

End metafunction_facts.

(** The header's own smoke tests ([OWS_SMOKE_TEST]). *)
Example smoke_CTMM :
  vrnt.s_min (-5) 3 [6; 1; 5]%Z = (-5)%Z ∧ vrnt.s_max (-5) 3 [6; 1; 5]%Z = 6%Z ∧
  vrnt.s_min 3 6 [1; 5]%Z = 1%Z ∧ vrnt.s_max 3 6 [1; 5]%Z = 6%Z.
Proof. done. Qed.

Example smoke_is_any_is_all :
  vrnt.is_any c_bool c_char [c_int; c_float; c_bool] = true ∧
  vrnt.is_any c_bool c_char [c_int; c_float] = false ∧
  vrnt.is_all c_bool c_char [c_int; c_float] = false ∧
  vrnt.is_all c_bool c_bool [] = true ∧
  vrnt.is_all c_bool c_bool [c_bool; c_bool] = true ∧
  vrnt.is_all c_bool c_bool [c_bool; c_bool; c_float] = false.
Proof. done. Qed.

Example smoke_is_unique :
  vrnt.is_unique c_bool [c_bool; c_int; c_float; c_double] = false ∧
  vrnt.is_unique c_bool [c_float; c_int; c_float; c_double] = false ∧
  vrnt.is_unique c_bool [c_char; c_int; c_float; c_double] = true.
Proof. done. Qed.

Example smoke_IthType :
  vrnt.IthType 0 c_bool [c_char; c_int] = Some c_bool ∧
  vrnt.IthType 1 c_bool [c_char; c_int] = Some c_char ∧
  vrnt.IthType 2 c_bool [c_char; c_int] = Some c_int.
Proof. done. Qed.

Example smoke_IFromType :
  vrnt.IFromType 0 c_bool c_bool [c_char; c_int; c_float] = Some 0 ∧
  vrnt.IFromType 0 c_char c_bool [c_char; c_int; c_float] = Some 1 ∧
  vrnt.IFromType 0 c_int c_bool [c_char; c_int; c_float] = Some 2 ∧
  vrnt.IFromType 0 c_float c_bool [c_char; c_int; c_float] = Some 3.
Proof. done. Qed.

(** ** Evaluation of the members *)

Section Variant_facts.
Context {W : instantiation}.
Implicit Types (T : ty) (s : state) (x : Variant) (this other : N) (a : arg).

Lemma typeIdx_of_member T :
  vrnt.is_any_pack T Ts = Some true →
  ∃ i, vrnt.IFromType_pack T Ts = Some i ∧ Ts !! i = Some T.
Proof.
  intros HT. destruct (IFromType_pack_is_Some T Ts HT) as [i Hi].
  exists i. split; [done|]. by apply IFromType_pack_lookup.
Qed.

Lemma pack_unique_NoDup : pack_unique → NoDup Ts.
Proof.
  unfold pack_unique. destruct Ts as [|T0 Ts']; [done|].
  intros [= HU]. by apply is_unique_NoDup.
Qed.

Lemma typeIdx_of_lookup i T :
  pack_unique → Ts !! i = Some T →
  vrnt.IFromType_pack T Ts = Some i ∧ vrnt.is_any_pack T Ts = Some true.
Proof.
  intros HU%pack_unique_NoDup Hi. split; [by apply IFromType_pack_NoDup|].
  destruct Ts as [|T0 Ts'] eqn:ETs; [done|]. simpl. f_equal.
  apply is_any_elem_of. eapply list_elem_of_lookup_2. exact Hi.
Qed.

Lemma fits_unsigned i T :
  pack_fits → Ts !! i = Some T →
  to_unsigned i = N.of_nat i ∧ N.of_nat i ≠ s_Valueless ∧
  (N.of_nat i < N.of_nat (length Ts))%N.
Proof.
  unfold pack_fits, to_unsigned, s_Valueless. intros HF Hi%lookup_lt_Some.
  split; [apply N.mod_small; lia | lia].
Qed.

Lemma subscript_fmap {F} (g : ty → F) i T s :
  Ts !! i = Some T → subscript (g <$> Ts) (N.of_nat i) s = Ret (g T) s.
Proof.
  intros Hi. unfold subscript. by rewrite Nat2N.id, list_lookup_fmap, Hi.
Qed.

Lemma get_eval T this s x i :
  heap s !! this = Some x →
  vrnt.is_any_pack T Ts = Some true →
  vrnt.IFromType_pack T Ts = Some i →
  get T this s =
    if (N.of_nat i =? m_Idx x)%N then Ret (mkref this T) s
    else Throw (make_bad_variant_access
                  ["get<"; pretty i; "> on variant "; pretty (m_Idx x)]) s.
Proof.
  intros Hx HT Hi. unfold get, bind, enable_if, constant, load.
  rewrite HT, Hi. simpl. rewrite Hx. by destruct (N.of_nat i =? m_Idx x)%N.
Qed.

Lemma TDestructor_eval T this s x i v :
  pack_unique → heap s !! this = Some x → holds x i T v →
  TDestructor T this s =
    Ret () (mkState (<[this:=mkVariant (Dead T v) (m_Idx x)]> (heap s))
                    (trace s ++ [Destroyed this T v])).
Proof.
  intros HU Hx (Hidx & Hi & Hraw).
  destruct (typeIdx_of_lookup i T HU Hi) as [HI HT].
  unfold TDestructor, noexcept, bind. rewrite (get_eval T this s x i Hx HT HI).
  rewrite Hidx, N.eqb_refl. unfold destroy_at, bind, load. simpl.
  rewrite Hx, Hraw. rewrite decide_True by done. by rewrite Hidx.
Qed.

(** The statement [s_Destructors[m_Idx](this)] on an instance that holds
    an alternative. *)
Lemma destroy_step_eval this s x i T v :
  pack_unique → heap s !! this = Some x → holds x i T v →
  (f <- subscript s_Destructors (m_Idx x) ;; f this) s =
    Ret () (mkState (<[this:=mkVariant (Dead T v) (m_Idx x)]> (heap s))
                    (trace s ++ [Destroyed this T v])).
Proof.
  intros HU Hx Hh. pose proof Hh as (Hidx & Hi & _).
  unfold bind, s_Destructors. rewrite Hidx, (subscript_fmap _ i T s Hi).
  rewrite <- Hidx. by apply TDestructor_eval with i.
Qed.

Lemma holds_not_valueless x i T v :
  pack_fits → holds x i T v → (s_Valueless =? m_Idx x)%N = false.
Proof.
  intros HF (Hidx & Hi & _). destruct (fits_unsigned i T HF Hi) as (_ & Hne & _).
  apply N.eqb_neq. congruence.
Qed.

Lemma emplace_eval_active T a this s x j T0 v0 i :
  pack_unique → pack_fits →
  heap s !! this = Some x → holds x j T0 v0 →
  vrnt.IFromType_pack T Ts = Some i →
  emplace T a this s =
    placement_new T a this
      (mkState (<[this:=mkVariant (Dead T0 v0) (N.of_nat i)]> (heap s))
               (trace s ++ [Destroyed this T0 v0])).
Proof.
  intros HU HF Hx Hh Hi.
  assert (Ts !! i = Some T) as HiT by by apply IFromType_pack_lookup.
  destruct (typeIdx_of_lookup i T HU HiT) as [_ HT].
  destruct (fits_unsigned i T HF HiT) as (Hu & _ & _).
  unfold emplace. unfold bind at 1, enable_if. rewrite HT.
  unfold ret at 1. cbv beta iota. unfold bind at 1, load at 1. rewrite Hx.
  cbv beta iota. unfold bind at 1.
  rewrite (holds_not_valueless x j T0 v0 HF Hh). cbn [negb].
  rewrite (destroy_step_eval this s x j T0 v0 HU Hx Hh).
  unfold bind at 1, constant. rewrite Hi. unfold ret at 1. cbv beta iota.
  unfold bind at 1, set_Idx, bind, load, store. cbn [heap trace].
  rewrite lookup_insert_eq. cbn [heap trace m_Raw]. by rewrite insert_insert_eq, Hu.
Qed.

Lemma emplace_eval_valueless T a this s x i :
  pack_fits →
  heap s !! this = Some x → m_Idx x = s_Valueless →
  vrnt.is_any_pack T Ts = Some true →
  vrnt.IFromType_pack T Ts = Some i →
  emplace T a this s =
    placement_new T a this
      (mkState (<[this:=mkVariant (m_Raw x) (N.of_nat i)]> (heap s)) (trace s)).
Proof.
  intros HF Hx Hv HT Hi.
  assert (Ts !! i = Some T) as HiT by by apply IFromType_pack_lookup.
  destruct (fits_unsigned i T HF HiT) as (Hu & _ & _).
  unfold emplace. unfold bind at 1, enable_if. rewrite HT.
  unfold ret at 1. cbv beta iota. unfold bind at 1, load at 1. rewrite Hx.
  cbv beta iota. unfold bind at 1. rewrite Hv, N.eqb_refl. cbn [negb].
  unfold ret at 1. cbv beta iota.
  unfold bind at 1, constant. rewrite Hi. unfold ret at 1. cbv beta iota.
  unfold bind at 1, set_Idx, bind, load, store. cbn [heap trace].
  rewrite Hx. by rewrite Hu.
Qed.

(** A constructor call that returns or throws leaves the state as it is:
    the new object and the reset of the source come after it. *)
Lemma read_state src s st s' : read src s = Ret st s' → s' = s.
Proof.
  destruct src as [U u|p]; simpl; [by intros [= _ ->]|].
  unfold bind, load, ret. destruct (heap s !! p); [by intros [= _ ->]|done].
Qed.

Lemma read_no_throw src s e s' : read src s ≠ Throw e s'.
Proof.
  destruct src as [U u|p]; simpl; [done|].
  unfold bind, load, ret. by destruct (heap s !! p).
Qed.

Lemma run_constructor_ret T a s built s' :
  run_constructor T a s = Ret built s' → s' = s.
Proof.
  destruct a as [[|] src|a']; simpl.
  - unfold bind. destruct (read src s) as [st s0| |] eqn:Hr; [|done..].
    apply read_state in Hr as ->.
    destruct (copy_construct T st); [|done]. by intros [= _ ->].
  - unfold bind. destruct (read src s) as [st s0| |] eqn:Hr; [|done..].
    apply read_state in Hr as ->.
    destruct (move_construct T st) as [[w w']|]; [|done]. by intros [= _ ->].
  - destruct (args_construct T a'); [|done]. by intros [= _ ->].
Qed.

Lemma run_constructor_throw T a s e s' :
  run_constructor T a s = Throw e s' →
  s' = s ∧ ∃ e', e = alternative_failure e'.
Proof.
  destruct a as [[|] src|a']; simpl.
  - unfold bind. destruct (read src s) as [st s0|e0 s0|] eqn:Hr; [| |done].
    + apply read_state in Hr as ->.
      destruct (copy_construct T st); [done|]. intros [= <- <-]. eauto.
    + by apply read_no_throw in Hr.
  - unfold bind. destruct (read src s) as [st s0|e0 s0|] eqn:Hr; [| |done].
    + apply read_state in Hr as ->.
      destruct (move_construct T st) as [[w w']|]; [done|]. intros [= <- <-]. eauto.
    + by apply read_no_throw in Hr.
  - destruct (args_construct T a'); [done|]. intros [= <- <-]. eauto.
Qed.

(** A constructor that returned on a reference into a buffer has read
    that buffer. *)
Lemma run_constructor_source T k p s built s' :
  run_constructor T (Forward k (Buffer p)) s = Ret built s' →
  is_Some (heap s !! p).
Proof.
  destruct k; simpl; unfold bind, load; by destruct (heap s !! p); eauto.
Qed.

(** [placement_new] when there is no source in a buffer to reset. *)
Lemma placement_new_eval T a this s v left x' :
  run_constructor T a s = Ret (v, left) s → heap s !! this = Some x' →
  (∀ st, reset_source a left st = Ret () st) →
  placement_new T a this s =
    Ret (mkref this T)
        (mkState (<[this:=mkVariant (Live T v) (m_Idx x')]> (heap s))
                 (trace s ++ [Constructed this T v])).
Proof.
  intros Hc Hx' Hreset. unfold placement_new, bind at 1. rewrite Hc.
  unfold construct_at, set_Raw, bind, load, store, log, ret. rewrite Hx'.
  cbn [fst snd]. by rewrite Hreset.
Qed.

(** [placement_new] from an rvalue in the buffer of [p]: [y1] is what that
    buffer is once the new object is in place. *)
Lemma placement_new_eval_move T p this s v v' x' y1 :
  run_constructor T (Forward rvalue (Buffer p)) s = Ret (v, Some v') s →
  heap s !! this = Some x' →
  <[this:=mkVariant (Live T v) (m_Idx x')]> (heap s) !! p = Some y1 →
  placement_new T (Forward rvalue (Buffer p)) this s =
    Ret (mkref this T)
        (mkState (<[p:=mkVariant (set_val (m_Raw y1) v') (m_Idx y1)]>
                    (<[this:=mkVariant (Live T v) (m_Idx x')]> (heap s)))
                 (trace s ++ [Constructed this T v])).
Proof.
  intros Hc Hx' Hp. unfold placement_new, bind at 1. rewrite Hc.
  unfold construct_at, set_Raw, bind, load, store, log, ret. rewrite Hx'.
  cbn [fst snd reset_source moved_from heap trace]. unfold bind, load, store.
  cbn [heap trace]. by rewrite Hp.
Qed.

Lemma reset_source_none a st : reset_source a None st = Ret () st.
Proof. by destruct a as [[|] src|a']. Qed.


Lemma placement_new_throw T a this s e s' :
  run_constructor T a s = Throw e s' → placement_new T a this s = Throw e s'.
Proof. intros Hc. unfold placement_new, bind. by rewrite Hc. Qed.

Lemma member_of_typeIdx T i :
  vrnt.IFromType_pack T Ts = Some i → vrnt.is_any_pack T Ts = Some true.
Proof.
  intros Hi%IFromType_pack_lookup. destruct Ts as [|T0 Ts'] eqn:ETs; [done|].
  simpl. f_equal. apply is_any_elem_of. eapply list_elem_of_lookup_2. exact Hi.
Qed.

Lemma run_constructor_copy_buffer T p s y v :
  heap s !! p = Some y → copy_construct T (m_Raw y) = Built v →
  run_constructor T (Forward lvalue (Buffer p)) s = Ret (v, None) s.
Proof.
  intros Hp Hc. unfold run_constructor, read, bind, load, ret. by rewrite Hp, Hc.
Qed.

Lemma run_constructor_move_buffer T p s y v v' :
  heap s !! p = Some y → move_construct T (m_Raw y) = Built (v, v') →
  run_constructor T (Forward rvalue (Buffer p)) s = Ret (v, Some v') s.
Proof.
  intros Hp Hc. unfold run_constructor, read, bind, load, ret. by rewrite Hp, Hc.
Qed.

Lemma emplace_eval T a this s x old i :
  pack_unique → pack_fits →
  heap s !! this = Some x → held x old →
  vrnt.IFromType_pack T Ts = Some i →
  emplace T a this s =
    placement_new T a this
      (mkState (<[this:=mkVariant (vacated x old) (N.of_nat i)]> (heap s))
               (trace s ++ destroyed this old)).
Proof.
  intros HU HF Hx Hold Hi. destruct old as [[T0 v0]|]; simpl in *.
  - destruct Hold as [j Hj]. by apply emplace_eval_active with x j.
  - rewrite app_nil_r. apply emplace_eval_valueless; try done.
    by apply member_of_typeIdx with i.
Qed.

(** ** Rules for [post] *)

Section post_rules.
Context {R : Type} (s : state) (Q : R → state → Prop) (Qe : exn → state → Prop).

Lemma post_ret r : Q r s → post (ret r) s Q Qe.
Proof. done. Qed.

Lemma post_throw e : Qe e s → post (throw e) s Q Qe.
Proof. done. Qed.

Lemma post_fail f : post (fail f) s Q Qe.
Proof. done. Qed.

Lemma post_bind {R'} (m : M R') (k : R' → M R) :
  post m s (λ r s', post (k r) s' Q Qe) Qe → post (bind m k) s Q Qe.
Proof. unfold post, bind. by destruct (m s). Qed.

Lemma post_cut {R'} (m : M R') (k : R' → M R) (P : R' → state → Prop) :
  post m s P Qe → (∀ r s', P r s' → post (k r) s' Q Qe) → post (bind m k) s Q Qe.
Proof.
  intros HP Hk. unfold post at 1 in HP. unfold post at 1, bind.
  destruct (m s); [by apply Hk | done..].
Qed.

Lemma post_mono (m : M R) (Q' : R → state → Prop) (Qe' : exn → state → Prop) :
  post m s Q' Qe' → (∀ r s', Q' r s' → Q r s') → (∀ e s', Qe' e s' → Qe e s') →
  post m s Q Qe.
Proof.
  intros HP HQ HQe. unfold post in *. destruct (m s); [by apply HQ | by apply HQe | done].
Qed.

Lemma post_noexcept (m : M R) :
  post m s Q (λ _ _, True) → post (noexcept m) s Q Qe.
Proof. unfold post, noexcept. by destruct (m s). Qed.

Lemma post_constant (c : option R) :
  (∀ r, c = Some r → Q r s) → post (constant c) s Q Qe.
Proof. destruct c; [|done]. intros HQ. by apply HQ. Qed.

Lemma post_subscript (table : list R) i :
  (∀ f, table !! N.to_nat i = Some f → Q f s) → post (subscript table i) s Q Qe.
Proof.
  unfold subscript. destruct (table !! N.to_nat i); [|done]. intros HQ. by apply HQ.
Qed.

End post_rules.

Section post_unit_rules.
Context (s : state) (Q : unit → state → Prop) (Qe : exn → state → Prop).

Lemma post_enable_if b : (b = Some true → Q () s) → post (enable_if b) s Q Qe.
Proof. destruct b as [[|]|]; [|done..]. intros HQ. by apply HQ. Qed.

Lemma post_store p x :
  Q () (mkState (<[p:=x]> (heap s)) (trace s)) → post (store p x) s Q Qe.
Proof. done. Qed.

Lemma post_log ev :
  Q () (mkState (heap s) (trace s ++ [ev])) → post (log ev) s Q Qe.
Proof. done. Qed.

Lemma post_alloc p x :
  (heap s !! p = None → Q () (mkState (<[p:=x]> (heap s)) (trace s))) →
  post (alloc p x) s Q Qe.
Proof.
  unfold post, alloc. destruct (heap s !! p); [done|]. intros HQ. by apply HQ.
Qed.

Lemma post_free p :
  Q () (mkState (delete p (heap s)) (trace s)) → post (free p) s Q Qe.
Proof. done. Qed.

Lemma post_set_Idx p i :
  (∀ x, heap s !! p = Some x →
        Q () (mkState (<[p:=mkVariant (m_Raw x) i]> (heap s)) (trace s))) →
  post (set_Idx p i) s Q Qe.
Proof.
  intros HQ. unfold post, set_Idx, bind, load, store.
  destruct (heap s !! p) as [x|]; [|done]. by apply HQ.
Qed.

Lemma post_moved_from src v' :
  (∀ T v, src = External T v → Q () s) →
  (∀ p y, src = Buffer p → heap s !! p = Some y →
          Q () (mkState (<[p:=mkVariant (set_val (m_Raw y) v') (m_Idx y)]> (heap s))
                        (trace s))) →
  post (moved_from src v') s Q Qe.
Proof.
  intros HE HB. destruct src as [T v|p]; simpl.
  - by apply (HE T v).
  - unfold post, bind, load, store. destruct (heap s !! p) as [y|] eqn:Hp; [|done].
    by apply (HB p y).
Qed.

(** [r.~T()] and the destructor entries touch the buffer of one instance. *)
Lemma post_destroy_at r :
  (∀ x T v, heap s !! ref_obj r = Some x → m_Raw x = Live T v →
            Q () (mkState (<[ref_obj r:=mkVariant (Dead T v) (m_Idx x)]> (heap s))
                          (trace s ++ [Destroyed (ref_obj r) T v]))) →
  post (destroy_at r) s Q Qe.
Proof.
  intros HQ. unfold post, destroy_at, bind, load.
  destruct (heap s !! ref_obj r) as [x|] eqn:Hx; [|done].
  destruct (m_Raw x) as [|T v|] eqn:Hraw; [done| |done].
  destruct (decide (T = ref_ty r)); [|done]. by apply HQ.
Qed.

End post_unit_rules.

Lemma post_load s p (Q : Variant → state → Prop) Qe :
  (∀ x, heap s !! p = Some x → Q x s) → post (load p) s Q Qe.
Proof.
  unfold post, load. destruct (heap s !! p); [|done]. intros HQ. by apply HQ.
Qed.

Lemma post_read s src (Q : storage ty val → state → Prop) Qe :
  (∀ st, Q st s) → post (read src) s Q Qe.
Proof.
  intros HQ. destruct src as [T v|p]; simpl; [apply HQ|].
  unfold post, bind, load. destruct (heap s !! p); [apply HQ|done].
Qed.

Lemma post_get T this s (Q : ref → state → Prop) Qe :
  Q (mkref this T) s → (∀ msg, Qe (bad_variant_access msg) s) →
  post (get T this) s Q Qe.
Proof.
  intros HQ HQe. unfold get. apply post_bind, post_enable_if. intros _.
  apply post_bind, post_constant. intros i _. apply post_bind, post_load.
  intros x _. destruct (negb _); [apply post_throw, HQe | by apply post_ret].
Qed.

Lemma post_TDestructor T this s (Q : unit → state → Prop) Qe :
  (∀ x T' v, heap s !! this = Some x → m_Raw x = Live T' v →
             Q () (mkState (<[this:=mkVariant (Dead T' v) (m_Idx x)]> (heap s))
                           (trace s ++ [Destroyed this T' v]))) →
  post (TDestructor T this) s Q Qe.
Proof.
  intros HQ. unfold TDestructor. apply post_noexcept, post_bind, post_get; [|done].
  apply post_destroy_at. exact HQ.
Qed.

(** The statement [s_Destructors[j](this)]. *)
Lemma post_destroy_step this j s (Q : unit → state → Prop) Qe :
  (∀ x T' v, heap s !! this = Some x → m_Raw x = Live T' v →
             Q () (mkState (<[this:=mkVariant (Dead T' v) (m_Idx x)]> (heap s))
                           (trace s ++ [Destroyed this T' v]))) →
  post (f <- subscript s_Destructors j ;; f this) s Q Qe.
Proof.
  intros HQ. apply post_bind, post_subscript. intros f Hf.
  unfold s_Destructors in Hf. rewrite list_lookup_fmap in Hf.
  destruct (Ts !! N.to_nat j) as [T|]; [|done]. injection Hf as <-.
  by apply post_TDestructor.
Qed.

Lemma post_run_constructor T a s (Q : val * option val → state → Prop) Qe :
  (∀ built, Q built s) →
  (∀ e, Qe (alternative_failure e) s) →
  post (run_constructor T a) s Q Qe.
Proof.
  intros HQ HQe. destruct a as [[|] src|a']; simpl.
  - apply post_bind, post_read. intros st.
    destruct (copy_construct T st); [apply post_ret, HQ | apply post_throw, HQe].
  - apply post_bind, post_read. intros st.
    destruct (move_construct T st) as [[v v']|];
      [apply post_ret, HQ | apply post_throw, HQe].
  - destruct (args_construct T a'); [apply post_ret, HQ | apply post_throw, HQe].
Qed.

Lemma post_reset_source a left s (Q : unit → state → Prop) Qe :
  Q () s →
  (∀ p y v', a = Forward rvalue (Buffer p) → left = Some v' →
             heap s !! p = Some y →
             Q () (mkState (<[p:=mkVariant (set_val (m_Raw y) v') (m_Idx y)]> (heap s))
                           (trace s))) →
  post (reset_source a left) s Q Qe.
Proof.
  intros HQ HQm. destruct a as [[|] src|a'], left as [v'|]; simpl; try done.
  apply post_moved_from; [done|]. intros p y -> Hp. by apply HQm.
Qed.

Lemma post_construct_at this T v s (Q : ref → state → Prop) Qe :
  (∀ x, heap s !! this = Some x →
        Q (mkref this T)
          (mkState (<[this:=mkVariant (Live T v) (m_Idx x)]> (heap s))
                   (trace s ++ [Constructed this T v]))) →
  post (construct_at this T v) s Q Qe.
Proof.
  intros HQ. unfold post, construct_at, set_Raw, bind, load, store, log, ret.
  destruct (heap s !! this) as [x|] eqn:Hx; [|done]. by apply HQ.
Qed.

(** ** Construction and access *)


(** C2: on an instance, for a type [T] of the pack with index [i] (and for
    an index [I] in range): [get<T>()] and [get<I>()] throw
    [bad_variant_access] exactly when the requested index differs from the
    discriminant, and return otherwise; they throw on every valueless
    instance; [get_if] and [holds_alternative] always return, with a null
    pointer or [false] exactly on that mismatch. *)
Theorem access_raises_iff_mismatch T this s x :
  pack_fits →
  heap s !! this = Some x →
  vrnt.is_any_pack T Ts = Some true →
  ∃ i, vrnt.IFromType_pack T Ts = Some i ∧
    ((∃ msg, get T this s = Throw (bad_variant_access msg) s) ↔ N.of_nat i ≠ m_Idx x) ∧
    (get T this s = Ret (mkref this T) s ↔ N.of_nat i = m_Idx x) ∧
    (m_Idx x = s_Valueless → ∃ msg, get T this s = Throw (bad_variant_access msg) s) ∧
    (∃ r, get_if T this s = Ret r s ∧
          (r = None ↔ N.of_nat i ≠ m_Idx x) ∧
          (r = Some (mkref this T) ↔ N.of_nat i = m_Idx x)) ∧
    (∃ b, holds_alternative T this s = Ret b s ∧ (b = false ↔ N.of_nat i ≠ m_Idx x)) ∧
    (∀ I' T', Ts !! I' = Some T' →
       ((∃ msg, get_I I' this s = Throw (bad_variant_access msg) s) ↔ N.of_nat I' ≠ m_Idx x) ∧
       (get_I I' this s = Ret (mkref this T') s ↔ N.of_nat I' = m_Idx x) ∧
       (m_Idx x = s_Valueless → ∃ msg, get_I I' this s = Throw (bad_variant_access msg) s) ∧
       (∃ r, get_if_I I' this s = Ret r s ∧
             (r = None ↔ N.of_nat I' ≠ m_Idx x) ∧
             (r = Some (mkref this T') ↔ N.of_nat I' = m_Idx x))).
Proof.
  intros HF Hx HT. destruct (typeIdx_of_member T HT) as (i & Hi & HiT).
  exists i. split; [done|].
  destruct (fits_unsigned i T HF HiT) as (_ & Hne & _).
  rewrite (get_eval T this s x i Hx HT Hi).
  unfold get_if, holds_alternative, bind, enable_if, constant, load, ret.
  rewrite HT, Hi, Hx.
  repeat split.
  - intros [msg Hm]. destruct (N.eqb_spec (N.of_nat i) (m_Idx x)); [done|done].
  - intros Hm. apply N.eqb_neq in Hm. rewrite Hm. unfold make_bad_variant_access. eauto.
  - destruct (N.eqb_spec (N.of_nat i) (m_Idx x)); done.
  - intros ->. by rewrite N.eqb_refl.
  - intros Hv. assert ((N.of_nat i =? m_Idx x)%N = false) as ->
      by (apply N.eqb_neq; congruence).
    unfold make_bad_variant_access. eauto.
  - eexists. split; [done|].
    destruct (N.eqb_spec (N.of_nat i) (m_Idx x)); split; split; done.
  - eexists. split; [done|].
    destruct (N.eqb_spec (N.of_nat i) (m_Idx x)); split; done.
  - intros [msg Hm]. revert Hm. unfold get_I, bind, enable_if, constant, load, ret.
    rewrite (proj2 (Nat.ltb_lt _ _) (lookup_lt_Some _ _ _ H)).
    rewrite IthType_pack_lookup, H, Hx.
    destruct (N.eqb_spec (N.of_nat I') (m_Idx x)); done.
  - intros Hm. unfold get_I, bind, enable_if, constant, load, ret.
    rewrite (proj2 (Nat.ltb_lt _ _) (lookup_lt_Some _ _ _ H)).
    rewrite IthType_pack_lookup, H, Hx.
    apply N.eqb_neq in Hm. rewrite Hm. unfold make_bad_variant_access. eauto.
  - unfold get_I, bind, enable_if, constant, load, ret.
    rewrite (proj2 (Nat.ltb_lt _ _) (lookup_lt_Some _ _ _ H)).
    rewrite IthType_pack_lookup, H, Hx.
    destruct (N.eqb_spec (N.of_nat I') (m_Idx x)); done.
  - intros Hm. unfold get_I, bind, enable_if, constant, load, ret.
    rewrite (proj2 (Nat.ltb_lt _ _) (lookup_lt_Some _ _ _ H)).
    rewrite IthType_pack_lookup, H, Hx. by rewrite Hm, N.eqb_refl.
  - intros Hv. unfold get_I, bind, enable_if, constant, load, ret.
    rewrite (proj2 (Nat.ltb_lt _ _) (lookup_lt_Some _ _ _ H)).
    rewrite IthType_pack_lookup, H, Hx.
    destruct (fits_unsigned I' T' HF H) as (_ & Hne' & _).
    assert ((N.of_nat I' =? m_Idx x)%N = false) as ->
      by (apply N.eqb_neq; congruence).
    unfold make_bad_variant_access. eauto.
  - unfold get_if_I, bind, enable_if, constant, load, ret.
    rewrite (proj2 (Nat.ltb_lt _ _) (lookup_lt_Some _ _ _ H)).
    rewrite IthType_pack_lookup, H, Hx.
    eexists. split; [done|].
    destruct (N.eqb_spec (N.of_nat I') (m_Idx x)); split; split; done.
Qed.

(** ** [emplace] *)

Lemma reset_source_trivial a left st :
  (∀ p, a ≠ Forward rvalue (Buffer p)) → reset_source a left st = Ret () st.
Proof.
  intros Ha. destruct a as [[|] [U u|p]|a'], left as [v'|]; try done.
  by destruct (Ha p).
Qed.

Lemma run_constructor_rvalue T src s v left s' :
  run_constructor T (Forward rvalue src) s = Ret (v, left) s' →
  ∃ v', left = Some v'.
Proof.
  simpl. unfold bind. destruct (read src s) as [st s0| |]; [|done..].
  destruct (move_construct T st) as [[w w']|]; [|done]. intros [= _ <- _]. eauto.
Qed.

(** C3: [emplace<T>(args...)] on an instance, for [T] at index [i] of the
    pack: the value held before, if any (of whatever type, [T] included),
    is destroyed exactly once, then [T] is constructed from the arguments;
    when that constructor returns [v], [emplace] returns a reference to the
    buffer, which now holds a live [T] with discriminant [i]: the value [v]
    or, when the arguments are an rvalue of this very buffer, the value the
    move constructor left in its source; the events added are the one
    destruction (if a value was held) followed by the construction. *)
Theorem emplace_destroys_once_then_constructs T a this s x old i v left s2 :
  pack_unique → pack_fits →
  heap s !! this = Some x → held x old →
  vrnt.IFromType_pack T Ts = Some i →
  run_constructor T a
    (mkState (<[this:=mkVariant (vacated x old) (N.of_nat i)]> (heap s))
             (trace s ++ destroyed this old)) = Ret (v, left) s2 →
  ∃ s' u, emplace T a this s = Ret (mkref this T) s' ∧
          heap s' !! this = Some (mkVariant (Live T u) (N.of_nat i)) ∧
          read (Buffer this) s' = Ret (Live T u) s' ∧
          index this s' = Ret (N.of_nat i) s' ∧
          trace s' = trace s ++ destroyed this old ++ [Constructed this T v] ∧
          (a ≠ Forward rvalue (Buffer this) → u = v) ∧
          (a = Forward rvalue (Buffer this) → left = Some u).
Proof.
  intros HU HF Hx Hold Hi Hrun.
  rewrite (emplace_eval T a this s x old i HU HF Hx Hold Hi).
  pose proof (run_constructor_ret _ _ _ _ _ Hrun) as ->.
  set (s1 := mkState (<[this:=mkVariant (vacated x old) (N.of_nat i)]> (heap s))
                     (trace s ++ destroyed this old)) in *.
  assert (heap s1 !! this = Some (mkVariant (vacated x old) (N.of_nat i))) as Hx1
    by apply lookup_insert_eq.
  assert (∀ s' u,
            heap s' !! this = Some (mkVariant (Live T u) (N.of_nat i)) →
            trace s' = trace s1 ++ [Constructed this T v] →
            heap s' !! this = Some (mkVariant (Live T u) (N.of_nat i)) ∧
            read (Buffer this) s' = Ret (Live T u) s' ∧
            index this s' = Ret (N.of_nat i) s' ∧
            trace s' = trace s ++ destroyed this old ++ [Constructed this T v])
    as Hfacts.
  { intros s' u Hl Htr. split; [done|]. unfold read, index, bind, load, ret.
    rewrite Hl. cbn [m_Raw m_Idx]. split; [done|]. split; [done|].
    rewrite Htr. unfold s1. cbn [trace]. by rewrite (assoc_L (++)). }
  assert ((∃ p, a = Forward rvalue (Buffer p)) ∨
          (∀ p, a ≠ Forward rvalue (Buffer p))) as [[p ->]|Hno].
  { destruct a as [[|] [U u|p]|a']; eauto; right; done. }
  - destruct (run_constructor_rvalue _ _ _ _ _ _ Hrun) as [v' ->].
    destruct (decide (p = this)) as [->|Hne].
    + rewrite (placement_new_eval_move T this this s1 v v'
                 (mkVariant (vacated x old) (N.of_nat i))
                 (mkVariant (Live T v) (N.of_nat i)) Hrun Hx1)
        by apply lookup_insert_eq.
      eexists _, v'. split; [done|]. cbn [m_Raw m_Idx set_val].
      match goal with
      | |- heap ?st !! _ = Some (mkVariant (Live _ ?u) _) ∧ _ =>
          destruct (Hfacts st u) as (H1 & H2 & H3 & H4)
      end; [cbn [heap]; apply lookup_insert_eq | done |].
      split; [exact H1|]. split; [exact H2|]. split; [exact H3|].
      split; [exact H4|]. split; done.
    + destruct (run_constructor_source _ _ _ _ _ _ Hrun) as [y Hy].
      rewrite (placement_new_eval_move T p this s1 v v'
                 (mkVariant (vacated x old) (N.of_nat i)) y Hrun Hx1)
        by (by rewrite lookup_insert_ne).
      eexists _, v. split; [done|].
      match goal with
      | |- heap ?st !! _ = Some (mkVariant (Live _ ?u) _) ∧ _ =>
          destruct (Hfacts st u) as (H1 & H2 & H3 & H4)
      end; [cbn [heap m_Idx]; rewrite lookup_insert_ne by done;
            apply lookup_insert_eq | done |].
      split; [exact H1|]. split; [exact H2|]. split; [exact H3|].
      split; [exact H4|]. split; [done|]. intros [= ?]. done.
  - rewrite (placement_new_eval T a this s1 v left
               (mkVariant (vacated x old) (N.of_nat i)) Hrun Hx1)
      by (intros st; by apply reset_source_trivial).
    eexists _, v. split; [done|].
    match goal with
    | |- heap ?st !! _ = Some (mkVariant (Live _ ?u) _) ∧ _ =>
        destruct (Hfacts st u) as (H1 & H2 & H3 & H4)
    end; [cbn [heap]; apply lookup_insert_eq | done |].
    split; [exact H1|]. split; [exact H2|]. split; [exact H3|].
    split; [exact H4|]. split; [done|]. intros ->. by destruct (Hno this).
Qed.

(** C4, as the code has it: when the constructor of the new alternative
    fails during [emplace<T>] (and so during a copy assignment, which is an
    [emplace] from the buffer of the source), the exception of the
    alternative reaches the caller as it is; by then the value held before
    has been destroyed and the discriminant is already the index [i] of [T],
    not the sentinel: the instance does not report valueless.  Nothing was
    constructed: the buffer is the destroyed value, or for a valueless
    target what it was before, and so it holds no live object when the
    target had none under the sentinel. *)
Theorem emplace_failure_propagates T a this s x old i e s1 :
  pack_unique → pack_fits →
  heap s !! this = Some x → held x old →
  vrnt.IFromType_pack T Ts = Some i →
  run_constructor T a
    (mkState (<[this:=mkVariant (vacated x old) (N.of_nat i)]> (heap s))
             (trace s ++ destroyed this old)) = Throw e s1 →
  (∃ e', e = alternative_failure e') ∧
  emplace T a this s = Throw e s1 ∧
  heap s1 !! this = Some (mkVariant (vacated x old) (N.of_nat i)) ∧
  trace s1 = trace s ++ destroyed this old ∧
  valueless this s1 = Ret false s1 ∧
  index this s1 = Ret (N.of_nat i) s1 ∧
  (valueless_empty x → ∀ U u, vacated x old ≠ Live U u) ∧
  (∀ U u, old = Some (U, u) → vacated x old = Dead U u) ∧
  (∀ other y w, heap s !! other = Some y → holds y i T w →
                a = Forward lvalue (Buffer other) →
                assign_copy this other s = Throw e s1).
Proof.
  intros HU HF Hx Hold Hi Hrun.
  pose proof (emplace_eval T a this s x old i HU HF Hx Hold Hi) as Hem.
  destruct (run_constructor_throw _ _ _ _ _ Hrun) as [-> He].
  rewrite (placement_new_throw _ _ this _ _ _ Hrun) in Hem.
  assert (Ts !! i = Some T) as HiT by by apply IFromType_pack_lookup.
  destruct (fits_unsigned i T HF HiT) as (_ & Hne & _).
  split; [done|]. split; [done|]. cbn [heap trace].
  split; [by rewrite lookup_insert_eq|]. split; [done|].
  unfold valueless, index, bind, load, ret. cbn [heap].
  rewrite lookup_insert_eq. cbn [m_Idx].
  split; [by rewrite (proj2 (N.eqb_neq _ _) Hne)|]. split; [done|].
  split.
  { intros Hempty U u. destruct old as [[T0 v0]|]; [done|]. by apply Hempty. }
  split; [by intros U u ->|].
  intros other y w Hy Hh ->. unfold assign_copy, bind at 1, load. rewrite Hy.
  rewrite N.eqb_sym.
  assert ((m_Idx y =? s_Valueless)%N = false) as ->.
  { rewrite N.eqb_sym. by apply holds_not_valueless with i T w. }
  destruct Hh as (Hidx & _ & _). unfold bind at 1, s_CopyAssigns.
  rewrite Hidx, (subscript_fmap _ i T s HiT). unfold TAssign, bind. by rewrite Hem.
Qed.

(** ** Moving *)

(** C5: when [a] holds alternative [i] (a [T] of value [v]) and the move
    constructor of [T] transfers [v], move-constructing [b] from [a]
    returns; [b] then holds alternative [i] with value [v], and [a] is
    valueless: [a.valueless()] is true and [a.index()] is the sentinel. *)
Theorem move_construction_transfers (a b : N) s x i T v v' :
  pack_unique → pack_fits →
  heap s !! a = Some x → holds x i T v →
  heap s !! b = None →
  move_construct T (Live T v) = Built (v, v') →
  ∃ s' y,
    Variant_move b a s = Ret () s' ∧
    heap s' !! b = Some y ∧ holds y i T v ∧
    index b s' = Ret (N.of_nat i) s' ∧
    valueless a s' = Ret true s' ∧
    index a s' = Ret s_Valueless s'.
Proof.
  intros HU HF Hx Hh Hfresh Hmove. pose proof Hh as (Hidx & HiT & Hraw).
  assert (a ≠ b) as Hab by (intros ->; congruence).
  destruct (typeIdx_of_lookup i T HU HiT) as [Hi HT].
  set (s0 := mkState (<[b:=mkVariant Raw s_Valueless]> (heap s)) (trace s)).
  assert (heap s0 !! a = Some x) as Hx0 by by (cbn; rewrite lookup_insert_ne).
  assert (emplace T (Forward rvalue (Buffer a)) b s0 =
    Ret (mkref b T)
        (mkState (<[b:=mkVariant (Live T v) (N.of_nat i)]>
                    (<[a:=mkVariant (Live T v') (m_Idx x)]> (heap s0)))
                 (trace s ++ [Constructed b T v]))) as Hem.
  { rewrite (emplace_eval_valueless T _ b s0 (mkVariant Raw s_Valueless) i HF);
      [|by apply lookup_insert_eq|done..].
    erewrite (placement_new_eval_move T a b _ v v' _ x); cycle 1.
    - eapply run_constructor_move_buffer.
      + cbn [heap]. rewrite lookup_insert_ne by done. exact Hx0.
      + rewrite Hraw. exact Hmove.
    - cbn [heap]. apply lookup_insert_eq.
    - cbn [heap]. rewrite !lookup_insert_ne by done. exact Hx0.
    - cbn [heap trace m_Idx m_Raw]. rewrite Hraw. cbn [set_val].
      rewrite insert_insert_eq.
      by rewrite (insert_insert_ne _ a b) by done. }
  eexists _, (mkVariant (Live T v) (N.of_nat i)).
  split; [|split; [|split; [|split; [|split]]]].
  - unfold Variant_move, noexcept, bind at 1, Variant_default, alloc.
    rewrite Hfresh. fold s0. unfold bind at 1, load at 1. rewrite Hx0.
    rewrite (holds_not_valueless x i T v HF Hh).
    unfold bind at 1, s_MoveAssigns. rewrite Hidx, (subscript_fmap _ i T s0 HiT).
    unfold bind at 1, TAssign, bind at 1. rewrite Hem. unfold ret at 1.
    unfold set_Idx, bind, load, store. cbn [heap trace].
    rewrite lookup_insert_ne by done. rewrite lookup_insert_eq. done.
  - cbn [heap]. rewrite lookup_insert_ne by done. apply lookup_insert_eq.
  - done.
  - unfold index, bind, load, ret. cbn [heap].
    rewrite lookup_insert_ne by done. by rewrite lookup_insert_eq.
  - unfold valueless, bind, load, ret. cbn [heap]. by rewrite lookup_insert_eq.
  - unfold index, bind, load, ret. cbn [heap]. by rewrite lookup_insert_eq.
Qed.

(** C9: move-assigning an instance that holds alternative [i] to itself
    returns (when the move constructor of the alternative returns on the
    buffer its own destructor left) with the instance valueless:
    [valueless()] is true and [index()] is the sentinel, although the buffer
    was given a new object.  Source and target are the one buffer, so what
    it holds in the end is what the move constructor leaves in its source,
    [w'], written over the object [w] it constructed. *)
Theorem self_move_assignment_valueless (a : N) s x i T v w w' :
  pack_unique → pack_fits →
  heap s !! a = Some x → holds x i T v →
  move_construct T (Dead T v) = Built (w, w') →
  ∃ s', assign_move a a s = Ret () s' ∧
        valueless a s' = Ret true s' ∧
        index a s' = Ret s_Valueless s' ∧
        heap s' !! a = Some (mkVariant (Live T w') s_Valueless) ∧
        trace s' = trace s ++ [Destroyed a T v; Constructed a T w].
Proof.
  intros HU HF Hx Hh Hmove. pose proof Hh as (Hidx & HiT & Hraw).
  destruct (typeIdx_of_lookup i T HU HiT) as [Hi HT].
  assert (emplace T (Forward rvalue (Buffer a)) a s =
    Ret (mkref a T)
        (mkState (<[a:=mkVariant (Live T w') (N.of_nat i)]> (heap s))
                 (trace s ++ [Destroyed a T v; Constructed a T w]))) as Hem.
  { rewrite (emplace_eval_active T _ a s x i T v i HU HF Hx Hh Hi).
    erewrite (placement_new_eval_move T a a _ w w'); cycle 1.
    - eapply run_constructor_move_buffer.
      + cbn [heap]. apply lookup_insert_eq.
      + exact Hmove.
    - cbn [heap]. apply lookup_insert_eq.
    - cbn [heap]. apply lookup_insert_eq.
    - cbn [heap trace m_Idx m_Raw set_val].
      by rewrite !insert_insert_eq, <- (assoc_L (++)). }
  eexists. split; [|split; [|split; [|split]]].
  - unfold assign_move, noexcept, bind at 1, load at 1. rewrite Hx.
    rewrite (holds_not_valueless x i T v HF Hh).
    unfold bind at 1, s_MoveAssigns. rewrite Hidx, (subscript_fmap _ i T s HiT).
    unfold bind at 1, TAssign, bind at 1. rewrite Hem. unfold ret at 1.
    unfold set_Idx, bind, load, store. cbn [heap trace].
    rewrite lookup_insert_eq. done.
  - unfold valueless, bind, load, ret. cbn [heap]. by rewrite lookup_insert_eq.
  - unfold index, bind, load, ret. cbn [heap]. by rewrite lookup_insert_eq.
  - cbn [heap m_Raw]. by rewrite lookup_insert_eq.
  - done.
Qed.

(** ** Copying *)

(** [emplace] on one instance leaves every other instance as it is, unless
    it is handed that instance's buffer to move from. *)
Lemma emplace_frame T a this (q : N) y s :
  q ≠ this → a ≠ Forward rvalue (Buffer q) → heap s !! q = Some y →
  post (emplace T a this) s
       (λ _ s', heap s' !! q = Some y) (λ _ s', heap s' !! q = Some y).
Proof.
  intros Hq Ha Hy. unfold emplace. apply post_bind, post_enable_if. intros _.
  apply post_bind, post_load. intros x Hx.
  apply post_cut with (P := λ _ s', heap s' !! q = Some y).
  { destruct (negb _); [|by apply post_ret].
    apply post_destroy_step. intros. cbn [heap]. by rewrite lookup_insert_ne. }
  intros _ s1 H1. apply post_bind, post_constant. intros i _.
  apply post_cut with (P := λ _ s', heap s' !! q = Some y).
  { apply post_set_Idx. intros. cbn [heap]. by rewrite lookup_insert_ne. }
  intros _ s2 H2. unfold placement_new.
  apply post_cut with (P := λ _ s', heap s' !! q = Some y).
  { by apply post_run_constructor. }
  intros built s3 H3.
  apply post_cut with (P := λ _ s', heap s' !! q = Some y).
  { apply post_construct_at. intros. cbn [heap]. by rewrite lookup_insert_ne. }
  intros r s4 H4. apply post_bind, post_reset_source.
  - by apply post_ret.
  - intros p y' v' -> _ Hp. apply post_ret. cbn [heap].
    rewrite lookup_insert_ne; [done|]. intros ->. by apply Ha.
Qed.

(** C6: copy-constructing [b] from [a] returns (when [a] holds a value, as
    soon as the copy constructor of its alternative returns) and leaves [a]
    as it was, discriminant and buffer; [b] has the discriminant of [a]
    (a valueless source gives a valueless copy) and its own object; whatever
    a later [emplace] on [b] does, returning or throwing, [a] is still as
    it was, unless that [emplace] is told to move from the buffer of [a]. *)
Theorem copy_is_independent (a b : N) s x :
  pack_unique → pack_fits →
  heap s !! a = Some x → heap s !! b = None →
  (m_Idx x = s_Valueless ∨
   ∃ i T v w, holds x i T v ∧ copy_construct T (Live T v) = Built w) →
  ∃ s1,
    Variant_copy b a s = Ret () s1 ∧
    heap s1 !! a = Some x ∧
    index b s1 = Ret (m_Idx x) s1 ∧
    valueless b s1 = Ret (m_Idx x =? s_Valueless)%N s1 ∧
    (∀ i T v w, holds x i T v → copy_construct T (Live T v) = Built w →
                ∃ y, heap s1 !! b = Some y ∧ holds y i T w) ∧
    (∀ U a', a' ≠ Forward rvalue (Buffer a) →
             post (emplace U a' b) s1
                  (λ _ s2, heap s2 !! a = Some x) (λ _ s2, heap s2 !! a = Some x)).
Proof.
  intros HU HF Hx Hfresh Hcase.
  assert (a ≠ b) as Hab by (intros ->; congruence).
  set (s0 := mkState (<[b:=mkVariant Raw s_Valueless]> (heap s)) (trace s)).
  assert (heap s0 !! a = Some x) as Hx0 by by (cbn; rewrite lookup_insert_ne).
  destruct Hcase as [Hv|(i & T & v & w & Hh & Hcopy)].
  - exists s0. split; [|split; [|split; [|split; [|split]]]].
    + unfold Variant_copy, bind at 1, Variant_default, alloc. rewrite Hfresh.
      fold s0. unfold delegating, bind, load. rewrite Hx0.
      by rewrite Hv, N.eqb_refl.
    + done.
    + unfold index, bind, load, ret, s0. cbn [heap].
      by rewrite lookup_insert_eq, Hv.
    + unfold valueless, bind, load, ret, s0. cbn [heap].
      by rewrite lookup_insert_eq, Hv.
    + intros i T v w Hh _. apply (holds_not_valueless x i T v HF) in Hh.
      by rewrite Hv, N.eqb_refl in Hh.
    + intros U a' Ha'. by apply emplace_frame.
  - pose proof Hh as (Hidx & HiT & Hraw).
    destruct (typeIdx_of_lookup i T HU HiT) as [Hi HT].
    destruct (fits_unsigned i T HF HiT) as (_ & Hne & _).
    assert (emplace T (Forward lvalue (Buffer a)) b s0 =
      Ret (mkref b T)
          (mkState (<[b:=mkVariant (Live T w) (N.of_nat i)]> (heap s0))
                   (trace s ++ [Constructed b T w]))) as Hem.
    { rewrite (emplace_eval_valueless T _ b s0 (mkVariant Raw s_Valueless) i HF);
        [|by apply lookup_insert_eq|done..].
      erewrite placement_new_eval; cycle 1.
      - eapply run_constructor_copy_buffer.
        + cbn [heap]. rewrite lookup_insert_ne by done. exact Hx0.
        + rewrite Hraw. exact Hcopy.
      - cbn [heap]. apply lookup_insert_eq.
      - intros st. apply reset_source_none.
      - cbn [heap trace m_Idx]. by rewrite insert_insert_eq. }
    eexists. split; [|split; [|split; [|split; [|split]]]].
    + unfold Variant_copy, bind at 1, Variant_default, alloc. rewrite Hfresh.
      fold s0. unfold delegating, bind at 1, load at 1. rewrite Hx0.
      rewrite (holds_not_valueless x i T v HF Hh).
      unfold bind at 1, s_CopyAssigns.
      rewrite Hidx, (subscript_fmap _ i T s0 HiT).
      unfold TAssign, bind. rewrite Hem. done.
    + cbn [heap]. by rewrite lookup_insert_ne.
    + unfold index, bind, load, ret. cbn [heap]. by rewrite lookup_insert_eq, Hidx.
    + unfold valueless, bind, load, ret. cbn [heap]. rewrite lookup_insert_eq.
      cbn [m_Idx]. by rewrite Hidx.
    + intros i2 T2 v2 w2 (Hidx2 & HiT2 & Hraw2) Hc2.
      assert (i2 = i) as -> by (apply Nat2N.inj; congruence).
      assert (T2 = T) as -> by congruence.
      assert (v2 = v) as -> by congruence.
      assert (w2 = w) as -> by congruence.
      eexists. split; [cbn [heap]; apply lookup_insert_eq|]. done.
    + intros U a' Ha'. apply emplace_frame; [done..|].
      cbn [heap]. by rewrite lookup_insert_ne.
Qed.

(** ** The destroy entries of the dispatch table *)








(** ** The state invariant *)











Lemma assign_table_entry k j f :
  (TAssign k <$> Ts) !! N.to_nat j = Some f → ∃ T, f = TAssign k T.
Proof.
  rewrite list_lookup_fmap. destruct (Ts !! N.to_nat j) as [T|]; [|done].
  intros [= <-]. eauto.
Qed.



(** The accessors leave the state as it is. *)
Lemma accessors_pure c s :
  match c with
  | call_index _ | call_valueless _ | call_holds_alternative _ _
  | call_get_if _ _ | call_get_if_I _ _ | call_get _ _ | call_get_I _ _ => True
  | _ => False
  end →
  post (run c) s (λ _ s', s' = s) (λ _ s', s' = s).
Proof.
  destruct c; try done; intros _; simpl;
    unfold post, index, valueless, holds_alternative, get_if, get_if_I, get, get_I,
      bind, enable_if, constant, load, ret, throw, fail;
    repeat (match goal with
            | |- context [match ?o with _ => _ end] =>
                lazymatch o with
                | context [match _ with _ => _ end] => fail
                | _ => destruct o eqn:?
                end
            end; try done).
Qed.




Implicit Types (y : Variant) (p q : N) (moved : gset N).

(** ** The instances a move has emptied *)


























Lemma reachable_has_tracking s : reachable s → ∃ moved, reachable_tracking s moved.
Proof.
  induction 1 as [|s c s' _ [moved IH] Hrun|s c m_msg s' _ [moved IH] Hrun].
  - exists ∅. apply tracking_initial.
  - exists (track c s moved). by apply tracking_call.
  - exists moved. by apply tracking_caught with s c m_msg.
Qed.




End Variant_facts.

(** ** The properties on the concrete program *)

Section demo_facts.
#[local] Existing Instance demo.




Lemma access_raises_iff_mismatch_witness :
  ∃ i, vrnt.IFromType_pack c_string Ts = Some i ∧
    ((∃ msg, get c_string 1 demo_int = Throw (bad_variant_access msg) demo_int)
       ↔ N.of_nat i ≠ 0%N) ∧
    (get c_string 1 demo_int = Ret (mkref 1 c_string) demo_int ↔ N.of_nat i = 0%N) ∧
    (0%N = s_Valueless →
       ∃ msg, get c_string 1 demo_int = Throw (bad_variant_access msg) demo_int) ∧
    (∃ r, get_if c_string 1 demo_int = Ret r demo_int ∧
          (r = None ↔ N.of_nat i ≠ 0%N) ∧
          (r = Some (mkref 1 c_string) ↔ N.of_nat i = 0%N)) ∧
    (∃ b, holds_alternative c_string 1 demo_int = Ret b demo_int ∧
          (b = false ↔ N.of_nat i ≠ 0%N)) ∧
    (∀ I' T', Ts !! I' = Some T' →
       ((∃ msg, get_I I' 1 demo_int = Throw (bad_variant_access msg) demo_int)
          ↔ N.of_nat I' ≠ 0%N) ∧
       (get_I I' 1 demo_int = Ret (mkref 1 T') demo_int ↔ N.of_nat I' = 0%N) ∧
       (0%N = s_Valueless →
          ∃ msg, get_I I' 1 demo_int = Throw (bad_variant_access msg) demo_int) ∧
       (∃ r, get_if_I I' 1 demo_int = Ret r demo_int ∧
             (r = None ↔ N.of_nat I' ≠ 0%N) ∧
             (r = Some (mkref 1 T') ↔ N.of_nat I' = 0%N))).
Proof.
  apply (access_raises_iff_mismatch (W:=demo) c_string 1 demo_int
           (mkVariant (W:=demo) (Live c_int "42") 0)).
  - unfold pack_fits, s_Valueless. simpl. lia.
  - reflexivity.
  - reflexivity.
Defined.

(** The scenario of the documentation: [get<std::string>()] on an instance
    holding the [int] 42 throws, with the message of the header. *)
Example get_string_on_int :
  get c_string 1 demo_int =
    Throw (bad_variant_access "bad_variant_access: get<1> on variant 0") demo_int.
Proof. reflexivity. Qed.

Lemma emplace_destroys_once_then_constructs_witness :
  ∃ s' u,
    emplace c_string (Direct (W:=demo) 2%Z) 1 demo_int = Ret (mkref 1 c_string) s' ∧
    heap s' !! 1%N = Some (mkVariant (Live c_string u) (N.of_nat 1)) ∧
    read (Buffer 1) s' = Ret (Live c_string u) s' ∧
    index 1 s' = Ret (N.of_nat 1) s' ∧
    trace s' = trace demo_int ++ [Destroyed 1 c_int "42"]
                 ++ [Constructed 1 c_string "2"] ∧
    (Direct (W:=demo) 2%Z ≠ Forward rvalue (Buffer 1) → u = "2") ∧
    (Direct (W:=demo) 2%Z = Forward rvalue (Buffer 1) → None = Some u).
Proof.
  eapply (emplace_destroys_once_then_constructs (W:=demo) c_string (Direct (W:=demo) 2%Z) 1
            demo_int (mkVariant (W:=demo) (Live c_int "42") 0) (Some (c_int, "42")) 1 "2"
            None).
  - reflexivity.
  - unfold pack_fits, s_Valueless. simpl. lia.
  - reflexivity.
  - exists 0. repeat split; reflexivity.
  - reflexivity.
  - reflexivity.
Defined.

Lemma emplace_failure_propagates_witness :
  (∃ e', alternative_failure "fragile" = alternative_failure e') ∧
  emplace c_fragile (Forward lvalue (Buffer 1)) 2 demo_fragile_pair
    = Throw (alternative_failure "fragile") demo_fragile_failed ∧
  heap demo_fragile_failed !! 2%N = Some (mkVariant (Dead c_int "42") (N.of_nat 3)) ∧
  trace demo_fragile_failed = trace demo_fragile_pair ++ [Destroyed 2 c_int "42"] ∧
  valueless 2 demo_fragile_failed = Ret false demo_fragile_failed ∧
  index 2 demo_fragile_failed = Ret (N.of_nat 3) demo_fragile_failed ∧
  (∀ U u, Dead c_int "42" ≠ Live U u) ∧
  Dead c_int "42" = Dead c_int "42" ∧
  assign_copy 2 1 demo_fragile_pair
    = Throw (alternative_failure "fragile") demo_fragile_failed.
Proof.
  destruct (emplace_failure_propagates (W:=demo) c_fragile
              (Forward (W:=demo) lvalue (Buffer 1)) 2 demo_fragile_pair
              (mkVariant (W:=demo) (Live c_int "42") 0) (Some (c_int, "42")) 3
              (alternative_failure (W:=demo) "fragile") demo_fragile_failed)
    as (H1 & H2 & H3 & H4 & H5 & H6 & H7 & H8 & H9).
  - reflexivity.
  - unfold pack_fits, s_Valueless. simpl. lia.
  - reflexivity.
  - exists 0. repeat split; reflexivity.
  - reflexivity.
  - vm_compute. reflexivity.
  - split; [exact H1|]. split; [exact H2|]. split; [exact H3|].
    split; [exact H4|]. split; [exact H5|]. split; [exact H6|].
    split; [apply H7; intros Hv; vm_compute in Hv; discriminate Hv|].
    split; [by apply (H8 c_int "42")|].
    apply (H9 1%N (mkVariant (W:=demo) (Live c_fragile "f") 3) "f").
    + reflexivity.
    + repeat split; reflexivity.
    + reflexivity.
Defined.

(** C4 as stated fails: after [emplace<std::string>] has thrown on an
    instance holding an [int], the discriminant is the index of
    [std::string], not the sentinel, and the instance does not report
    valueless, while its buffer holds the destroyed [int]; and a failing
    move constructor inside the [noexcept] move assignment does not reach
    the caller. *)
Lemma failed_emplace_is_not_valueless :
  emplace c_string (Direct (W:=demo) (-1)%Z) 1 demo_int
    = Throw (alternative_failure "length_error") demo_failed ∧
  valueless 1 demo_failed = Ret false demo_failed ∧
  index 1 demo_failed = Ret 1%N demo_failed ∧
  heap demo_failed !! 1%N = Some (mkVariant (Dead c_int "42") 1) ∧
  assign_move 2 1 demo_fragile = Fault std_terminate.
Proof. repeat split; vm_compute; reflexivity. Qed.

Lemma move_construction_transfers_witness :
  ∃ s' y,
    Variant_move 2 1 demo_string = Ret () s' ∧
    heap s' !! 2%N = Some y ∧ holds y 1 c_string "hi" ∧
    index 2 s' = Ret (N.of_nat 1) s' ∧
    valueless 1 s' = Ret true s' ∧
    index 1 s' = Ret s_Valueless s'.
Proof.
  apply (move_construction_transfers (W:=demo) 1 2 demo_string
           (mkVariant (W:=demo) (Live c_string "hi") 1) 1 c_string "hi" "").
  - reflexivity.
  - unfold pack_fits, s_Valueless. simpl. lia.
  - reflexivity.
  - repeat split; reflexivity.
  - reflexivity.
  - reflexivity.
Defined.

Lemma copy_is_independent_witness :
  ∃ s1,
    Variant_copy 2 1 demo_string = Ret () s1 ∧
    heap s1 !! 1%N = Some (mkVariant (Live c_string "hi") 1) ∧
    index 2 s1 = Ret 1%N s1 ∧
    valueless 2 s1 = Ret (1 =? s_Valueless)%N s1 ∧
    (∀ i T v w, holds (mkVariant (Live c_string "hi") 1) i T v →
                copy_construct T (Live T v) = Built w →
                ∃ y, heap s1 !! 2%N = Some y ∧ holds y i T w) ∧
    (∀ U a', a' ≠ Forward rvalue (Buffer 1) →
             post (emplace U a' 2) s1
                  (λ _ s2, heap s2 !! 1%N = Some (mkVariant (Live c_string "hi") 1))
                  (λ _ s2, heap s2 !! 1%N = Some (mkVariant (Live c_string "hi") 1))).
Proof.
  apply (copy_is_independent (W:=demo) 1 2 demo_string
           (mkVariant (W:=demo) (Live c_string "hi") 1)).
  - reflexivity.
  - unfold pack_fits, s_Valueless. simpl. lia.
  - reflexivity.
  - reflexivity.
  - right. exists 1, c_string, "hi", "hi". split; [repeat split; reflexivity | reflexivity].
Defined.






(** A constructor of [Variant] whose body throws: the target constructor
    [Variant{}] has completed, so the destructor runs on an instance whose
    discriminant names an object that was never constructed. *)
Example failed_value_construction :
  Variant_value c_fragile lvalue (External c_fragile "f") 1 initial
    = Fault undefined_behaviour.
Proof. vm_compute. reflexivity. Qed.

Lemma self_move_assignment_valueless_witness :
  ∃ s', assign_move 1 1 demo_string = Ret () s' ∧
        valueless 1 s' = Ret true s' ∧
        index 1 s' = Ret s_Valueless s' ∧
        heap s' !! 1%N = Some (mkVariant (Live c_string "") s_Valueless) ∧
        trace s' = trace demo_string
                     ++ [Destroyed 1 c_string "hi"; Constructed 1 c_string "hi"].
Proof.
  apply (self_move_assignment_valueless (W:=demo) 1 demo_string
           (mkVariant (W:=demo) (Live c_string "hi") 1) 1 c_string "hi" "hi" "").
  - reflexivity.
  - unfold pack_fits, s_Valueless. simpl. lia.
  - reflexivity.
  - repeat split; reflexivity.
  - reflexivity.
Defined.


End demo_facts.

(** * Further properties *)

(** ** The metafunctions *)

Section metafunction_more.
Context {ty : Type} {ty_eq_dec : EqDecision ty}.
Implicit Types (R T : ty) (Ts : list ty).

Lemma s_max_bounds A B Cs :
  vrnt.s_max A B Cs ∈ A :: B :: Cs ∧
  ∀ z, z ∈ A :: B :: Cs → (z ≤ vrnt.s_max A B Cs)%Z.
Proof.
  revert A B. induction Cs as [|C Cs IH]; intros A B; cbn [vrnt.s_max].
  - split.
    + rewrite !elem_of_cons. destruct (A >? B)%Z; auto.
    + intros z. rewrite !elem_of_cons, elem_of_nil.
      destruct (Z.gtb_spec A B); lia.
  - destruct (IH (if (A >? B)%Z then A else B) C) as [Hin Hle]. split.
    + revert Hin. rewrite !elem_of_cons.
      destruct (A >? B)%Z; intros [->|[->|?]]; auto.
    + intros z Hz. assert ((if (A >? B)%Z then A else B) ≤ vrnt.s_max
                              (if (A >? B)%Z then A else B) C Cs)%Z as Hm
        by (apply Hle; rewrite elem_of_cons; auto).
      revert Hz. rewrite !elem_of_cons. intros [->|[->|Hz]].
      * destruct (Z.gtb_spec A B); lia.
      * destruct (Z.gtb_spec A B); lia.
      * apply Hle. rewrite !elem_of_cons. auto.
Qed.

Lemma s_min_bounds A B Cs :
  vrnt.s_min A B Cs ∈ A :: B :: Cs ∧
  ∀ z, z ∈ A :: B :: Cs → (vrnt.s_min A B Cs ≤ z)%Z.
Proof.
  revert A B. induction Cs as [|C Cs IH]; intros A B; cbn [vrnt.s_min].
  - split.
    + rewrite !elem_of_cons. destruct (A >? B)%Z; auto.
    + intros z. rewrite !elem_of_cons, elem_of_nil.
      destruct (Z.gtb_spec A B); lia.
  - destruct (IH (if (A >? B)%Z then B else A) C) as [Hin Hle]. split.
    + revert Hin. rewrite !elem_of_cons.
      destruct (A >? B)%Z; intros [->|[->|?]]; auto.
    + intros z Hz. assert (vrnt.s_min (if (A >? B)%Z then B else A) C Cs
                           ≤ (if (A >? B)%Z then B else A))%Z as Hm
        by (apply Hle; rewrite elem_of_cons; auto).
      revert Hz. rewrite !elem_of_cons. intros [->|[->|Hz]].
      * destruct (Z.gtb_spec A B); lia.
      * destruct (Z.gtb_spec A B); lia.
      * apply Hle. rewrite !elem_of_cons. auto.
Qed.

(** X1: [CTMM<T, A, B, Cs...>::s_max] is the greatest and [s_min] the least
    of the values [A, B, Cs...]: each is one of them and bounds them all. *)
Theorem CTMM_is_extremum A B Cs :
  (vrnt.s_max A B Cs ∈ A :: B :: Cs ∧
   ∀ z, z ∈ A :: B :: Cs → (z ≤ vrnt.s_max A B Cs)%Z) ∧
  (vrnt.s_min A B Cs ∈ A :: B :: Cs ∧
   ∀ z, z ∈ A :: B :: Cs → (vrnt.s_min A B Cs ≤ z)%Z).
Proof. split; [apply s_max_bounds | apply s_min_bounds]. Qed.

(** X2: when [Variant<Ts...>] instantiates, with [s_RawSize] equal to [n],
    the pack has at least two types, no type twice, and [n] is the size of
    one alternative and at least the size of every alternative: the buffer
    [m_Raw] can hold any of them.  A pack of one type does not instantiate
    ([CTMM] needs two values). *)
Theorem instantiated_buffer_fits_all (sizeof : ty → Z) Ts n :
  vrnt.Variant_instantiate sizeof Ts = Some n →
  2 ≤ length Ts ∧ NoDup Ts ∧
  (∃ T, T ∈ Ts ∧ n = sizeof T) ∧
  (∀ T, T ∈ Ts → (sizeof T ≤ n)%Z) ∧
  (∀ T, vrnt.Variant_instantiate sizeof [T] = None).
Proof.
  unfold vrnt.Variant_instantiate. intros Hn.
  destruct Ts as [|T0 [|T1 Ts']]; [done| |].
  { simpl in Hn. by destruct (vrnt.is_unique T0 []). }
  cbn [vrnt.is_unique_pack] in Hn.
  destruct (vrnt.is_unique T0 (T1 :: Ts')) eqn:HU; [|done].
  cbn [fmap list_fmap vrnt.s_max_pack] in Hn. injection Hn as <-.
  destruct (s_max_bounds (sizeof T0) (sizeof T1) (sizeof <$> Ts')) as [Hin Hle].
  split; [simpl; lia|]. split; [by apply is_unique_NoDup|].
  change (sizeof T0 :: sizeof T1 :: (sizeof <$> Ts'))
    with (sizeof <$> (T0 :: T1 :: Ts')) in Hin, Hle.
  split; [|split].
  - apply list_elem_of_fmap in Hin as (T & -> & HT). eauto.
  - intros T HT. apply Hle. by apply list_elem_of_fmap_2.
  - intros T. done.
Qed.

(** X3: [is_any<R, T, Ts...>] is true exactly when [R] is one of
    [T, Ts...], and [is_all<R, T, Ts...>] exactly when every one of them is
    [R]. *)
Theorem is_any_is_all_characterised R T Ts :
  (vrnt.is_any R T Ts = true ↔ R ∈ T :: Ts) ∧
  (vrnt.is_all R T Ts = true ↔ ∀ U, U ∈ T :: Ts → U = R).
Proof.
  split; [apply is_any_elem_of|].
  revert T. induction Ts as [|T' Ts' IH]; intros T; cbn [vrnt.is_all].
  - rewrite is_same_true. split.
    + intros -> U ->%list_elem_of_singleton. done.
    + intros HU. symmetry. apply HU. by left.
  - rewrite andb_true_iff, is_same_true, IH. split.
    + intros [-> HU] U [->|HU']%elem_of_cons; [done | by apply HU].
    + intros HU. split; [symmetry; apply HU; by left|].
      intros U HU'. apply HU. by right.
Qed.

Lemma IFromType_first I R T Ts j k :
  vrnt.IFromType I R T Ts = Some j → (T :: Ts) !! k = Some R → I + k ≥ j.
Proof.
  revert I T k. induction Ts as [|T' Ts' IH]; intros I T k;
    cbn [vrnt.IFromType vrnt.is_any]; destruct (vrnt.is_same R T) eqn:E.
  - intros [= <-] _. lia.
  - done.
  - intros [= <-] _. lia.
  - cbn [orb]. destruct (vrnt.is_any R T' Ts'); [|done]. intros Hj Hk.
    destruct k as [|k].
    + simpl in Hk. injection Hk as ->.
      by rewrite (proj2 (is_same_true R R)) in E.
    + simpl in Hk. specialize (IH (S I) T' k Hj Hk). lia.
Qed.

Lemma IFromType_None I R T Ts :
  vrnt.IFromType I R T Ts = None ↔ R ∉ T :: Ts.
Proof.
  rewrite <- is_any_elem_of. split.
  - intros HN HR. destruct (IFromType_is_Some I R T Ts HR) as [j Hj]. congruence.
  - intros HR. destruct (vrnt.IFromType I R T Ts) as [j|] eqn:Hj; [|done].
    exfalso. apply HR. apply is_any_elem_of.
    destruct (IFromType_lookup I R T Ts j Hj) as (k & _ & Hk).
    eapply list_elem_of_lookup_2. exact Hk.
Qed.

(** X4: [IthType] and [IFromType] over a pack.  [IthType<I, Ts...>] is the
    type at position [I], and ill-formed from the length of the pack on;
    [IFromType<0, R, Ts...>] is the first position of [R], and ill-formed
    exactly when [R] is not in the pack; the type at the index of [R] is
    [R]; in a pack without duplicates the index of the type at [I] is
    [I]. *)
Theorem index_and_type_round_trip Ts :
  (∀ I', vrnt.IthType_pack I' Ts = Ts !! I') ∧
  (∀ I', vrnt.IthType_pack I' Ts = None ↔ length Ts ≤ I') ∧
  (∀ R, vrnt.IFromType_pack R Ts = None ↔ R ∉ Ts) ∧
  (∀ R j, vrnt.IFromType_pack R Ts = Some j →
          vrnt.IthType_pack j Ts = Some R ∧
          ∀ k, k < j → vrnt.IthType_pack k Ts ≠ Some R) ∧
  (NoDup Ts → ∀ I' R, vrnt.IthType_pack I' Ts = Some R →
                      vrnt.IFromType_pack R Ts = Some I').
Proof.
  split; [intros I'; apply IthType_pack_lookup|]. split; [|split; [|split]].
  - intros I'. rewrite IthType_pack_lookup. apply lookup_ge_None.
  - intros R. destruct Ts as [|T Ts']; [simpl; split; [set_solver|done]|].
    apply IFromType_None.
  - intros R j Hj. rewrite IthType_pack_lookup.
    split; [by apply IFromType_pack_lookup|].
    intros k Hk. rewrite IthType_pack_lookup. intros HR.
    destruct Ts as [|T Ts']; [done|]. simpl in Hj.
    pose proof (IFromType_first 0 R T Ts' j k Hj HR). lia.
  - intros Hnd I' R. rewrite IthType_pack_lookup. by apply IFromType_pack_NoDup.
Qed.

End metafunction_more.

(** ** The members of [Variant] *)

Section Variant_more.
Context {W : instantiation}.
Implicit Types (T : ty) (s : state) (x y : Variant) (this other : N).

Lemma state_eta s : mkState (heap s) (trace s) = s.
Proof. by destruct s. Qed.

(** X5: default construction in fresh storage returns a valueless
    instance and adds no event: [valueless()] is true, [index()] is the
    sentinel, and for every type of the pack [get] throws
    [bad_variant_access], [get_if] gives a null pointer and
    [holds_alternative] is false; destroying that instance gives back the
    state before the construction. *)
Theorem default_construction_is_valueless this s :
  pack_fits → heap s !! this = None →
  ∃ s', Variant_default this s = Ret () s' ∧
        trace s' = trace s ∧
        valueless this s' = Ret true s' ∧
        index this s' = Ret s_Valueless s' ∧
        (∀ T, vrnt.is_any_pack T Ts = Some true →
              (∃ msg, get T this s' = Throw (bad_variant_access msg) s') ∧
              get_if T this s' = Ret None s' ∧
              holds_alternative T this s' = Ret false s') ∧
        destroy this s' = Ret () s.
Proof.
  intros HF Hfresh. eexists. split.
  { unfold Variant_default, alloc. by rewrite Hfresh. }
  split; [done|].
  split; [unfold valueless, bind, load, ret; cbn [heap];
          by rewrite lookup_insert_eq|].
  split; [unfold index, bind, load, ret; cbn [heap];
          by rewrite lookup_insert_eq|].
  split.
  - intros T HT. destruct (typeIdx_of_member T HT) as (i & Hi & HiT).
    destruct (fits_unsigned i T HF HiT) as (_ & Hne & _).
    apply N.eqb_neq in Hne.
    erewrite get_eval; [|apply lookup_insert_eq|done..].
    unfold get_if, holds_alternative, bind, enable_if, constant, load, ret.
    rewrite HT, Hi. cbn [heap]. rewrite lookup_insert_eq. cbn [m_Idx].
    rewrite Hne. unfold make_bad_variant_access. eauto.
  - unfold destroy, bind, Variant_dtor, noexcept, bind, load, free, ret.
    cbn [heap]. rewrite lookup_insert_eq. cbn [m_Idx]. rewrite N.eqb_refl.
    cbn [heap trace]. rewrite delete_insert_eq, delete_id by done.
    by rewrite state_eta.
Qed.

(** The table entries of an instance that holds alternative [i]. *)
Lemma assign_entry k y i T v s :
  holds y i T v →
  subscript (TAssign k <$> Ts) (m_Idx y) s = Ret (TAssign k T) s.
Proof. intros (-> & HiT & _). by apply subscript_fmap. Qed.

Lemma emplace_copy_eval T this other s x old y i v w :
  pack_unique → pack_fits → this ≠ other →
  heap s !! this = Some x → held x old →
  heap s !! other = Some y → holds y i T v →
  copy_construct T (Live T v) = Built w →
  emplace T (Forward lvalue (Buffer other)) this s =
    Ret (mkref this T)
        (mkState (<[this:=mkVariant (Live T w) (N.of_nat i)]> (heap s))
                 (trace s ++ destroyed this old ++ [Constructed this T w])).
Proof.
  intros HU HF Hne Hx Hold Hy (Hidx & HiT & Hraw) Hcopy.
  destruct (typeIdx_of_lookup i T HU HiT) as [Hi _].
  rewrite (emplace_eval T _ this s x old i HU HF Hx Hold Hi).
  erewrite placement_new_eval; cycle 1.
  - eapply run_constructor_copy_buffer.
    + cbn [heap]. rewrite lookup_insert_ne by done. exact Hy.
    + rewrite Hraw. exact Hcopy.
  - cbn [heap]. apply lookup_insert_eq.
  - intros st. apply reset_source_none.
  - cbn [heap trace m_Idx]. by rewrite insert_insert_eq, (assoc_L (++)).
Qed.

Lemma emplace_move_eval T this other s x old y i v w v' :
  pack_unique → pack_fits → this ≠ other →
  heap s !! this = Some x → held x old →
  heap s !! other = Some y → holds y i T v →
  move_construct T (Live T v) = Built (w, v') →
  emplace T (Forward rvalue (Buffer other)) this s =
    Ret (mkref this T)
        (mkState (<[this:=mkVariant (Live T w) (N.of_nat i)]>
                    (<[other:=mkVariant (Live T v') (m_Idx y)]> (heap s)))
                 (trace s ++ destroyed this old ++ [Constructed this T w])).
Proof.
  intros HU HF Hne Hx Hold Hy (Hidx & HiT & Hraw) Hmove.
  destruct (typeIdx_of_lookup i T HU HiT) as [Hi _].
  rewrite (emplace_eval T _ this s x old i HU HF Hx Hold Hi).
  erewrite (placement_new_eval_move T other this _ w v' _ y); cycle 1.
  - eapply run_constructor_move_buffer.
    + cbn [heap]. rewrite lookup_insert_ne by done. exact Hy.
    + rewrite Hraw. exact Hmove.
  - cbn [heap]. apply lookup_insert_eq.
  - cbn [heap]. rewrite !lookup_insert_ne by done. exact Hy.
  - cbn [heap trace m_Idx m_Raw]. rewrite Hraw. cbn [set_val].
    rewrite insert_insert_eq, (insert_insert_ne _ other this) by done.
    by rewrite (assoc_L (++)).
Qed.

(** X6: copy assignment from another instance that holds alternative [i]:
    the value of the target, if any, is destroyed once, then a copy of the
    source value is constructed in the target, whose discriminant becomes
    [i]; the source is left as it was. *)
Theorem copy_assignment_destroys_then_copies this other s x old y i T v w :
  pack_unique → pack_fits → this ≠ other →
  heap s !! this = Some x → held x old →
  heap s !! other = Some y → holds y i T v →
  copy_construct T (Live T v) = Built w →
  ∃ s', assign_copy this other s = Ret () s' ∧
        heap s' !! this = Some (mkVariant (Live T w) (N.of_nat i)) ∧
        heap s' !! other = Some y ∧
        trace s' = trace s ++ destroyed this old ++ [Constructed this T w].
Proof.
  intros HU HF Hne Hx Hold Hy Hh Hcopy. eexists. split.
  { unfold assign_copy, bind at 1, load. rewrite Hy.
    rewrite (holds_not_valueless y i T v HF Hh). unfold bind at 1, s_CopyAssigns.
    rewrite (assign_entry lvalue y i T v s Hh). unfold TAssign, bind.
    by rewrite (emplace_copy_eval T this other s x old y i v w). }
  cbn [heap trace]. split; [apply lookup_insert_eq|].
  split; [by rewrite lookup_insert_ne|done].
Qed.

(** X7: copy or move assignment from a valueless source: the value of the
    target, if any, is destroyed once and the target becomes valueless;
    no constructor runs and nothing is thrown. *)
Theorem assignment_from_valueless_clears this other s x old y :
  pack_unique → pack_fits →
  heap s !! this = Some x → held x old →
  heap s !! other = Some y → m_Idx y = s_Valueless →
  ∃ s', assign_copy this other s = Ret () s' ∧
        assign_move this other s = Ret () s' ∧
        heap s' !! this = Some (mkVariant (vacated x old) s_Valueless) ∧
        valueless this s' = Ret true s' ∧
        trace s' = trace s ++ destroyed this old.
Proof.
  intros HU HF Hx Hold Hy Hv.
  assert ((x0 <- load this ;;
           (if negb (s_Valueless =? m_Idx x0)%N
            then f <- subscript s_Destructors (m_Idx x0) ;; f this
            else ret ()) ;;;
           set_Idx this s_Valueless) s =
          Ret () (mkState (<[this:=mkVariant (vacated x old) s_Valueless]> (heap s))
                          (trace s ++ destroyed this old))) as Hclear.
  { unfold bind at 1, load at 1. rewrite Hx. destruct old as [[T0 v0]|]; simpl in Hold.
    - destruct Hold as [j Hj]. unfold bind at 1.
      rewrite (holds_not_valueless x j T0 v0 HF Hj). cbn [negb].
      rewrite (destroy_step_eval this s x j T0 v0 HU Hx Hj).
      unfold set_Idx, bind, load, store. cbn [heap trace].
      rewrite lookup_insert_eq. cbn [heap trace m_Raw vacated destroyed].
      by rewrite insert_insert_eq.
    - unfold bind at 1. rewrite Hold, N.eqb_refl. cbn [negb]. unfold ret at 1.
      unfold set_Idx, bind, load, store. rewrite Hx. cbn [vacated destroyed].
      by rewrite app_nil_r. }
  eexists. split; [|split; [|split; [|split]]].
  - unfold assign_copy, bind at 1, load at 1. rewrite Hy, Hv, N.eqb_refl.
    exact Hclear.
  - unfold assign_move, noexcept, bind at 1, load at 1.
    rewrite Hy, Hv, N.eqb_refl. by rewrite Hclear.
  - cbn [heap]. apply lookup_insert_eq.
  - unfold valueless, bind, load, ret. cbn [heap]. by rewrite lookup_insert_eq.
  - done.
Qed.

(** X8: move assignment from another instance that holds alternative [i]:
    the value of the target, if any, is destroyed once, the source value is
    move-constructed into the target, whose discriminant becomes [i], and
    the source ends valueless with the moved-from object still in its
    buffer. *)
Theorem move_assignment_transfers this other s x old y i T v w v' :
  pack_unique → pack_fits → this ≠ other →
  heap s !! this = Some x → held x old →
  heap s !! other = Some y → holds y i T v →
  move_construct T (Live T v) = Built (w, v') →
  ∃ s', assign_move this other s = Ret () s' ∧
        heap s' !! this = Some (mkVariant (Live T w) (N.of_nat i)) ∧
        heap s' !! other = Some (mkVariant (Live T v') s_Valueless) ∧
        valueless other s' = Ret true s' ∧
        trace s' = trace s ++ destroyed this old ++ [Constructed this T w].
Proof.
  intros HU HF Hne Hx Hold Hy Hh Hmove. eexists. split.
  { unfold assign_move, noexcept, bind at 1, load at 1. rewrite Hy.
    rewrite (holds_not_valueless y i T v HF Hh). unfold bind at 1, s_MoveAssigns.
    rewrite (assign_entry rvalue y i T v s Hh). unfold bind at 1, TAssign, bind at 1.
    rewrite (emplace_move_eval T this other s x old y i v w v')
      by done. unfold ret at 1.
    unfold set_Idx, bind, load, store. cbn [heap trace].
    rewrite lookup_insert_ne by done. rewrite lookup_insert_eq. done. }
  cbn [heap trace m_Raw].
  split; [rewrite lookup_insert_ne by done; apply lookup_insert_eq|].
  split; [apply lookup_insert_eq|].
  split; [|done]. unfold valueless, bind, load, ret. cbn [heap].
  by rewrite lookup_insert_eq.
Qed.


Lemma run_constructor_move_fails T p s y e :
  heap s !! p = Some y → move_construct T (m_Raw y) = Fails e →
  run_constructor T (Forward rvalue (Buffer p)) s = Throw (alternative_failure e) s.
Proof.
  intros Hp Hc. unfold run_constructor, read, thrown, throw, bind, load, ret.
  by rewrite Hp, Hc.
Qed.

(** X10: the members declared [noexcept] that construct an alternative do
    not report a failing constructor: when the move constructor of the
    alternative held by [other] throws, move assignment from [other], value
    assignment from the buffer of [other] and move construction from [other]
    all end in [std::terminate]. *)
Theorem noexcept_members_terminate_on_failure this other fresh s x old y i T v e :
  pack_unique → pack_fits → this ≠ other →
  heap s !! this = Some x → held x old →
  heap s !! other = Some y → holds y i T v →
  heap s !! fresh = None →
  move_construct T (Live T v) = Fails e →
  assign_move this other s = Fault std_terminate ∧
  assign_value T rvalue (Buffer other) this s = Fault std_terminate ∧
  Variant_move fresh other s = Fault std_terminate.
Proof.
  intros HU HF Hne Hx Hold Hy Hh Hfresh Hfail. pose proof Hh as (Hidx & HiT & Hraw).
  destruct (typeIdx_of_lookup i T HU HiT) as [Hi _].
  assert (fresh ≠ other) as Hfo by (intros ->; congruence).
  assert (∀ this' s0 x0 old0,
            this' ≠ other → heap s0 !! this' = Some x0 → held x0 old0 →
            heap s0 !! other = Some y →
            ∃ s1, emplace T (Forward rvalue (Buffer other)) this' s0
                    = Throw (alternative_failure e) s1) as Hem.
  { intros this' s0 x0 old0 Hne' Hx0 Hold0 Hy0.
    rewrite (emplace_eval T _ this' s0 x0 old0 i HU HF Hx0 Hold0 Hi).
    eexists. apply placement_new_throw. eapply run_constructor_move_fails.
    - cbn [heap]. rewrite lookup_insert_ne by done. exact Hy0.
    - by rewrite Hraw. }
  destruct (Hem this s x old Hne Hx Hold Hy) as [s1 Hs1].
  split; [|split].
  - unfold assign_move, noexcept, bind at 1, load at 1. rewrite Hy.
    rewrite (holds_not_valueless y i T v HF Hh). unfold bind at 1, s_MoveAssigns.
    rewrite (assign_entry rvalue y i T v s Hh). unfold bind at 1, TAssign, bind at 1.
    by rewrite Hs1.
  - unfold assign_value, noexcept, bind. by rewrite Hs1.
  - set (s0 := mkState (<[fresh:=mkVariant Raw s_Valueless]> (heap s)) (trace s)).
    destruct (Hem fresh s0 (mkVariant Raw s_Valueless) None) as [s2 Hs2];
      [done|apply lookup_insert_eq|done|by cbn; rewrite lookup_insert_ne|].
    unfold Variant_move, noexcept, bind at 1, Variant_default, alloc.
    rewrite Hfresh. fold s0. unfold bind at 1, load at 1.
    assert (heap s0 !! other = Some y) as -> by by (cbn; rewrite lookup_insert_ne).
    rewrite (holds_not_valueless y i T v HF Hh). unfold bind at 1, s_MoveAssigns.
    rewrite (assign_entry rvalue y i T v s0 Hh). unfold bind at 1, TAssign, bind at 1.
    by rewrite Hs2.
Qed.

(** X11: copy assignment of an instance to itself does not leave it alone:
    the value is destroyed and a new one is copy-constructed from the buffer
    the destructor left; when that constructor returns [w], the instance
    holds the same alternative with value [w]. *)
Theorem self_copy_assignment_rebuilds (a : N) s x i T v w :
  pack_unique → pack_fits →
  heap s !! a = Some x → holds x i T v →
  copy_construct T (Dead T v) = Built w →
  ∃ s', assign_copy a a s = Ret () s' ∧
        heap s' !! a = Some (mkVariant (Live T w) (N.of_nat i)) ∧
        trace s' = trace s ++ [Destroyed a T v; Constructed a T w].
Proof.
  intros HU HF Hx Hh Hcopy. pose proof Hh as (Hidx & HiT & Hraw).
  destruct (typeIdx_of_lookup i T HU HiT) as [Hi HT].
  assert (emplace T (Forward lvalue (Buffer a)) a s =
    Ret (mkref a T)
        (mkState (<[a:=mkVariant (Live T w) (N.of_nat i)]> (heap s))
                 (trace s ++ [Destroyed a T v; Constructed a T w]))) as Hem.
  { rewrite (emplace_eval_active T _ a s x i T v i HU HF Hx Hh Hi).
    erewrite placement_new_eval; cycle 1.
    - eapply run_constructor_copy_buffer.
      + cbn [heap]. apply lookup_insert_eq.
      + exact Hcopy.
    - cbn [heap]. apply lookup_insert_eq.
    - intros st. apply reset_source_none.
    - cbn [heap trace m_Idx]. by rewrite insert_insert_eq, <- (assoc_L (++)). }
  eexists. split.
  { unfold assign_copy, bind at 1, load at 1. rewrite Hx.
    rewrite (holds_not_valueless x i T v HF Hh). unfold bind at 1, s_CopyAssigns.
    rewrite (assign_entry lvalue x i T v s Hh). unfold TAssign, bind.
    by rewrite Hem. }
  split; [cbn [heap]; apply lookup_insert_eq | done].
Qed.

Lemma destroy_eval this s x old :
  pack_unique → pack_fits →
  heap s !! this = Some x → held x old →
  destroy this s =
    Ret () (mkState (delete this (heap s)) (trace s ++ destroyed this old)).
Proof.
  intros HU HF Hx Hold. unfold destroy, bind at 1, Variant_dtor, noexcept.
  unfold bind at 1, load at 1. rewrite Hx. destruct old as [[T0 v0]|]; simpl in Hold.
  - destruct Hold as [j Hj]. rewrite (holds_not_valueless x j T0 v0 HF Hj).
    rewrite (destroy_step_eval this s x j T0 v0 HU Hx Hj). unfold free.
    cbn [heap trace destroyed]. by rewrite delete_insert_eq.
  - rewrite Hold, N.eqb_refl. unfold ret, free. cbn [destroyed].
    by rewrite app_nil_r.
Qed.

(** X12: the end of an instance: its destructor destroys the value it
    holds exactly once (and does nothing for a valueless instance), the
    instance is gone, and the other instances are untouched. *)
Theorem destruction_destroys_held_value this s x old :
  pack_unique → pack_fits →
  heap s !! this = Some x → held x old →
  ∃ s', destroy this s = Ret () s' ∧
        heap s' !! this = None ∧
        (∀ p, p ≠ this → heap s' !! p = heap s !! p) ∧
        trace s' = trace s ++ destroyed this old.
Proof.
  intros HU HF Hx Hold. eexists.
  split; [exact (destroy_eval this s x old HU HF Hx Hold)|].
  cbn [heap trace]. split; [apply lookup_delete_eq|]. split; [|done].
  intros p Hp. by rewrite lookup_delete_ne.
Qed.

(** X13: the value left in the source of a move construction is never
    destroyed: after [Variant b{ std::move(a) }] the buffer of [a] holds the
    moved-from object under the sentinel, and the destructor of [a] then
    runs no destructor of an alternative; the only event of the whole
    sequence is the construction in [b]. *)
Theorem moved_from_object_is_never_destroyed (a b : N) s x i T v v' :
  pack_unique → pack_fits →
  heap s !! a = Some x → holds x i T v →
  heap s !! b = None →
  move_construct T (Live T v) = Built (v, v') →
  ∃ s1 s2,
    Variant_move b a s = Ret () s1 ∧
    heap s1 !! a = Some (mkVariant (Live T v') s_Valueless) ∧
    destroy a s1 = Ret () s2 ∧
    heap s2 !! a = None ∧
    trace s2 = trace s ++ [Constructed b T v].
Proof.
  intros HU HF Hx Hh Hfresh Hmove.
  assert (a ≠ b) as Hab by (intros ->; congruence).
  set (s0 := mkState (<[b:=mkVariant Raw s_Valueless]> (heap s)) (trace s)).
  assert (heap s0 !! a = Some x) as Hx0 by by (cbn; rewrite lookup_insert_ne).
  pose proof (emplace_move_eval T b a s0 (mkVariant Raw s_Valueless) None x i v v v'
                HU HF (not_eq_sym Hab) (lookup_insert_eq _ _ _) eq_refl Hx0 Hh Hmove)
    as Hem.
  eexists _, _. split.
  { unfold Variant_move, noexcept, bind at 1, Variant_default, alloc.
    rewrite Hfresh. fold s0. unfold bind at 1, load at 1. rewrite Hx0.
    rewrite (holds_not_valueless x i T v HF Hh). unfold bind at 1, s_MoveAssigns.
    rewrite (assign_entry rvalue x i T v s0 Hh). unfold bind at 1, TAssign, bind at 1.
    rewrite Hem. unfold ret at 1. unfold set_Idx, bind, load, store.
    cbn [heap trace]. rewrite lookup_insert_ne by done.
    rewrite lookup_insert_eq. done. }
  split; [cbn [heap m_Raw]; apply lookup_insert_eq|]. split.
  { apply (destroy_eval a _ (mkVariant (Live T v') s_Valueless) None HU HF);
      [cbn [heap m_Raw]; apply lookup_insert_eq|done]. }
  split; [cbn [heap]; apply lookup_delete_eq|].
  cbn [trace destroyed]. by rewrite !app_nil_r.
Qed.

(** X14: access by type and access by index agree: for [T] at index [i]
    of the pack, [get<i>()] is [get<T>()] and [get_if<i>()] is
    [get_if<T>()], result, exception and message alike. *)
Theorem typed_and_indexed_access_agree T i this s :
  vrnt.IFromType_pack T Ts = Some i →
  get_I i this s = get T this s ∧ get_if_I i this s = get_if T this s.
Proof.
  intros Hi. pose proof (IFromType_pack_lookup T Ts i Hi) as HiT.
  pose proof (member_of_typeIdx T i Hi) as HT.
  unfold get_I, get, get_if_I, get_if, bind, enable_if, constant.
  rewrite HT, Hi, IthType_pack_lookup, HiT.
  by rewrite (proj2 (Nat.ltb_lt _ _) (lookup_lt_Some _ _ _ HiT)).
Qed.

(** X15: the observers ([index], [valueless], [holds_alternative],
    [get_if] and [get], by type or by index) change nothing: whether they
    return or throw, the instances and the events are as before. *)
Theorem observers_leave_state_unchanged T (I' : nat) this s :
  post (index this) s (λ _ s', s' = s) (λ _ s', s' = s) ∧
  post (valueless this) s (λ _ s', s' = s) (λ _ s', s' = s) ∧
  post (holds_alternative T this) s (λ _ s', s' = s) (λ _ s', s' = s) ∧
  post (get_if T this) s (λ _ s', s' = s) (λ _ s', s' = s) ∧
  post (get_if_I I' this) s (λ _ s', s' = s) (λ _ s', s' = s) ∧
  post (get T this) s (λ _ s', s' = s) (λ _ s', s' = s) ∧
  post (get_I I' this) s (λ _ s', s' = s) (λ _ s', s' = s).
Proof.
  repeat split;
    unfold post, index, valueless, holds_alternative, get_if, get_if_I, get, get_I,
      bind, enable_if, constant, load, ret, throw, fail;
    repeat case_match; simplify_eq; done.
Qed.

(** *** The discriminant stays an index *)

Lemma heap_indexed_insert p x s tr :
  heap_indexed s → discriminant_ok x →
  heap_indexed (mkState (<[p:=x]> (heap s)) tr).
Proof.
  intros Hs Hx q y. cbn [heap]. destruct (decide (p = q)) as [->|Hne].
  - rewrite lookup_insert_eq. by intros [= <-].
  - rewrite lookup_insert_ne by done. apply Hs.
Qed.

Lemma destroy_step_indexed this j s Qe :
  heap_indexed s →
  post (f <- subscript s_Destructors j ;; f this) s (λ _, heap_indexed) Qe.
Proof.
  intros Hs. apply post_destroy_step. intros x T' v Hx _.
  apply heap_indexed_insert; [done | exact (Hs this x Hx)].
Qed.

Lemma emplace_indexed T a this s Qe :
  pack_fits → (∀ e s', heap_indexed s' → Qe e s') → heap_indexed s →
  post (emplace T a this) s (λ _, heap_indexed) Qe.
Proof.
  intros HF HQe Hs. unfold emplace. apply post_bind, post_enable_if. intros _.
  apply post_bind, post_load. intros x Hx.
  apply post_cut with (P := λ _, heap_indexed).
  { destruct (negb _); [by apply destroy_step_indexed | by apply post_ret]. }
  intros _ s1 H1. apply post_bind, post_constant. intros i Hi.
  assert (Ts !! i = Some T) as HiT by by apply IFromType_pack_lookup.
  destruct (fits_unsigned i T HF HiT) as (Hu & _ & Hlt).
  apply post_cut with (P := λ _, heap_indexed).
  { apply post_set_Idx. intros x1 Hx1. apply heap_indexed_insert; [done|].
    right. cbn [m_Idx]. by rewrite Hu. }
  intros _ s2 H2. unfold placement_new.
  apply post_cut with (P := λ _, heap_indexed).
  { apply post_run_constructor; [done|by intros; apply HQe]. }
  intros built s3 H3. apply post_cut with (P := λ _, heap_indexed).
  { apply post_construct_at. intros x3 Hx3.
    apply heap_indexed_insert; [done | exact (H3 this x3 Hx3)]. }
  intros r s4 H4. apply post_bind, post_reset_source.
  - by apply post_ret.
  - intros p y v' _ _ Hp. apply post_ret.
    apply heap_indexed_insert; [done | exact (H4 p y Hp)].
Qed.

Lemma destroy_indexed this s Qe :
  heap_indexed s → post (destroy this) s (λ _, heap_indexed) Qe.
Proof.
  intros Hs. unfold destroy. apply post_cut with (P := λ _, heap_indexed).
  - unfold Variant_dtor. apply post_noexcept, post_bind, post_load. intros x _.
    destruct (_ =? _)%N; [by apply post_ret | by apply destroy_step_indexed].
  - intros _ s1 H1. apply post_free. intros p x. cbn [heap].
    destruct (decide (p = this)) as [->|Hne].
    + by rewrite lookup_delete_eq.
    + rewrite lookup_delete_ne by done. apply H1.
Qed.

Lemma delegating_indexed this body s :
  post body s (λ _, heap_indexed) (λ _, heap_indexed) →
  post (delegating this body) s (λ _, heap_indexed) (λ _, heap_indexed).
Proof.
  unfold post at 1, post at 1, delegating.
  destruct (body s) as [|e s0|]; [done| |done].
  intros H0. pose proof (destroy_indexed this s0 (λ _, heap_indexed) H0) as Hd.
  unfold post in Hd. by destruct (destroy this s0).
Qed.

Lemma run_indexed c s :
  pack_fits → heap_indexed s →
  post (run c) s (λ _, heap_indexed) (λ _, heap_indexed).
Proof.
  intros HF Hs.
  assert (∀ this s0 Qe, heap_indexed s0 →
            post (Variant_default this) s0 (λ _, heap_indexed) Qe) as Hdef.
  { intros this s0 Qe H0. apply post_alloc. intros _.
    apply heap_indexed_insert; [done | by left]. }
  assert (∀ this s0 Qe, heap_indexed s0 →
            post (x <- load this ;;
                  (if negb (s_Valueless =? m_Idx x)%N
                   then f <- subscript s_Destructors (m_Idx x) ;; f this
                   else ret ()) ;;;
                  set_Idx this s_Valueless) s0
                 (λ _, heap_indexed) Qe) as Hclear.
  { intros this s0 Qe H0. apply post_bind, post_load. intros x _.
    apply post_cut with (P := λ _, heap_indexed).
    - destruct (negb _); [by apply destroy_step_indexed | by apply post_ret].
    - intros _ s1 H1. apply post_set_Idx. intros x1 _.
      apply heap_indexed_insert; [done | by left]. }
  assert (∀ k T lhs rhs s0 Qe, (∀ e s', heap_indexed s' → Qe e s') →
            heap_indexed s0 →
            post (TAssign k T lhs rhs) s0 (λ _, heap_indexed) Qe) as Hassign.
  { intros k T lhs rhs s0 Qe HQe H0. unfold TAssign.
    apply post_cut with (P := λ _, heap_indexed); [by apply emplace_indexed|].
    intros _ s' Hs'. by apply post_ret. }
  assert (∀ p s0 Qe, heap_indexed s0 →
            post (set_Idx p s_Valueless) s0 (λ _, heap_indexed) Qe) as Hset.
  { intros p s0 Qe H0. apply post_set_Idx. intros x1 _.
    apply heap_indexed_insert; [done | by left]. }
  destruct c;
    try (eapply post_mono;
         [by apply accessors_pure| by intros _ ? ->| by intros ? ? ->]);
    simpl.
  - by apply Hdef.
  - unfold Variant_value. apply post_cut with (P := λ _, heap_indexed); [by apply Hdef|].
    intros _ s0 H0. apply delegating_indexed.
    apply post_cut with (P := λ _, heap_indexed); [by apply emplace_indexed|].
    intros _ s' Hs'. by apply post_ret.
  - unfold Variant_copy. apply post_cut with (P := λ _, heap_indexed); [by apply Hdef|].
    intros _ s0 H0. apply delegating_indexed, post_bind, post_load.
    intros o _. destruct (_ =? _)%N; [by apply post_ret|].
    apply post_bind, post_subscript. intros f [T ->]%assign_table_entry.
    by apply Hassign.
  - unfold Variant_move. apply post_noexcept.
    apply post_cut with (P := λ _, heap_indexed); [by apply Hdef|].
    intros _ s0 H0. apply post_bind, post_load. intros o _.
    destruct (_ =? _)%N; [by apply post_ret|].
    apply post_bind, post_subscript. intros f [T ->]%assign_table_entry.
    apply post_cut with (P := λ _, heap_indexed); [by apply Hassign|].
    intros _ s1 H1. by apply Hset.
  - unfold assign_copy. apply post_bind, post_load. intros o _.
    destruct (_ =? _)%N; [by apply Hclear|].
    apply post_bind, post_subscript. intros f [T ->]%assign_table_entry.
    by apply Hassign.
  - unfold assign_move. apply post_noexcept, post_bind, post_load. intros o _.
    destruct (_ =? _)%N; [by apply Hclear|].
    apply post_bind, post_subscript. intros f [T ->]%assign_table_entry.
    apply post_cut with (P := λ _, heap_indexed); [by apply Hassign|].
    intros _ s1 H1. by apply Hset.
  - unfold assign_value. apply post_noexcept.
    apply post_cut with (P := λ _, heap_indexed); [by apply emplace_indexed|].
    intros _ s' Hs'. by apply post_ret.
  - apply post_cut with (P := λ _, heap_indexed); [by apply emplace_indexed|].
    intros _ s' Hs'. by apply post_ret.
  - by apply destroy_indexed.
Qed.

Lemma reachable_catching_indexed s :
  pack_fits → reachable_catching s → heap_indexed s.
Proof.
  intros HF. induction 1 as [|s c s' _ IH Hrun|s c e s' _ IH Hrun].
  - intros p x. unfold initial. cbn [heap]. by rewrite lookup_empty.
  - pose proof (run_indexed c s HF IH) as Hp. unfold post in Hp. by rewrite Hrun in Hp.
  - pose proof (run_indexed c s HF IH) as Hp. unfold post in Hp. by rewrite Hrun in Hp.
Qed.

(** X16: whatever public operations are called, and whatever exceptions
    of theirs the caller catches (failing constructors of alternatives
    included), the discriminant of every instance is the sentinel or an
    index of the pack; so a discriminant other than the sentinel always
    selects an entry of each of the three dispatch tables. *)
Theorem discriminant_always_indexes_tables s p x :
  pack_fits → reachable_catching s → heap s !! p = Some x →
  discriminant_ok x ∧
  (m_Idx x ≠ s_Valueless →
   is_Some (s_Destructors !! N.to_nat (m_Idx x)) ∧
   is_Some (s_CopyAssigns !! N.to_nat (m_Idx x)) ∧
   is_Some (s_MoveAssigns !! N.to_nat (m_Idx x))).
Proof.
  intros HF Hs Hx. pose proof (reachable_catching_indexed s HF Hs p x Hx) as Hok.
  split; [done|]. intros Hne. destruct Hok as [?|Hlt]; [done|].
  unfold s_Destructors, s_CopyAssigns, s_MoveAssigns.
  repeat split; apply lookup_lt_is_Some; rewrite length_fmap; lia.
Qed.

(** X17: copy-constructing [b] from an instance that holds a value and
    then destroying [b] gives back the instances there were; the copy was
    constructed once and destroyed once. *)
Theorem copy_then_destroy_round_trip (a b : N) s x i T v w :
  pack_unique → pack_fits →
  heap s !! a = Some x → holds x i T v →
  heap s !! b = None →
  copy_construct T (Live T v) = Built w →
  ∃ s1 s2,
    Variant_copy b a s = Ret () s1 ∧
    destroy b s1 = Ret () s2 ∧
    heap s2 = heap s ∧
    trace s2 = trace s ++ [Constructed b T w; Destroyed b T w].
Proof.
  intros HU HF Hx Hh Hfresh Hcopy.
  assert (a ≠ b) as Hab by (intros ->; congruence).
  pose proof Hh as (_ & HiT & _).
  set (s0 := mkState (<[b:=mkVariant Raw s_Valueless]> (heap s)) (trace s)).
  assert (heap s0 !! a = Some x) as Hx0 by by (cbn; rewrite lookup_insert_ne).
  pose proof (emplace_copy_eval T b a s0 (mkVariant Raw s_Valueless) None x i v w
                HU HF (not_eq_sym Hab) (lookup_insert_eq _ _ _) eq_refl Hx0 Hh Hcopy)
    as Hem.
  eexists _, _. split.
  { unfold Variant_copy, bind at 1, Variant_default, alloc. rewrite Hfresh.
    fold s0. unfold delegating, bind at 1, load at 1. rewrite Hx0.
    rewrite (holds_not_valueless x i T v HF Hh). unfold bind at 1, s_CopyAssigns.
    rewrite (assign_entry lvalue x i T v s0 Hh). unfold TAssign, bind.
    rewrite Hem. done. }
  split.
  { apply (destroy_eval b _ (mkVariant (Live T w) (N.of_nat i)) (Some (T, w)) HU HF);
      [cbn [heap]; apply lookup_insert_eq|]. exists i. done. }
  unfold s0. cbn [heap trace destroyed]. split.
  - rewrite !delete_insert_eq. by apply delete_id.
  - by rewrite app_nil_l, <- (assoc_L (++)).
Qed.

(** X18: an instance reports at most one alternative: when its
    discriminant is an index of the pack, [holds_alternative<T>()] is true
    for the type at that index and for no other type of the pack; when it is
    valueless, for none. *)
Theorem exactly_one_alternative_reported this s x :
  pack_unique → pack_fits →
  heap s !! this = Some x → discriminant_ok x →
  (m_Idx x = s_Valueless →
   ∀ T, vrnt.is_any_pack T Ts = Some true →
        holds_alternative T this s = Ret false s) ∧
  (m_Idx x ≠ s_Valueless →
   ∃ T, Ts !! N.to_nat (m_Idx x) = Some T ∧
        holds_alternative T this s = Ret true s ∧
        ∀ U, holds_alternative U this s = Ret true s → U = T).
Proof.
  intros HU HF Hx Hok. split.
  - intros Hv T HT. destruct (typeIdx_of_member T HT) as (i & Hi & HiT).
    destruct (fits_unsigned i T HF HiT) as (_ & Hne & _).
    unfold holds_alternative, bind, constant, load, ret. rewrite Hi, Hx, Hv.
    by rewrite (proj2 (N.eqb_neq _ _) Hne).
  - intros Hne. destruct Hok as [?|Hlt]; [done|].
    destruct (lookup_lt_is_Some_2 Ts (N.to_nat (m_Idx x))) as [T HiT]; [lia|].
    destruct (typeIdx_of_lookup _ T HU HiT) as [Hi _].
    exists T. split; [done|]. split.
    + unfold holds_alternative, bind, constant, load, ret. rewrite Hi, Hx.
      by rewrite N2Nat.id, N.eqb_refl.
    + intros U. unfold holds_alternative, bind, constant, load, ret.
      destruct (vrnt.IFromType_pack U Ts) as [j|] eqn:Hj; [|done].
      rewrite Hx. intros [= Heq]. apply N.eqb_eq in Heq.
      apply IFromType_pack_lookup in Hj. rewrite <- Heq, Nat2N.id in HiT. congruence.
Qed.

(** X19: what is not in the pack does not compile: for a type that is not
    an alternative, [get], [get_if], [holds_alternative], [emplace] and
    value assignment are ill-formed, and so are [get] and [get_if] by an
    index from the length of the pack on, whatever the instance. *)
Theorem access_outside_pack_is_ill_formed T (I' : nat) k src a this s :
  T ∉ Ts → length Ts ≤ I' →
  get T this s = Fault ill_formed ∧
  get_if T this s = Fault ill_formed ∧
  holds_alternative T this s = Fault ill_formed ∧
  emplace T a this s = Fault ill_formed ∧
  assign_value T k src this s = Fault ill_formed ∧
  get_I I' this s = Fault ill_formed ∧
  get_if_I I' this s = Fault ill_formed.
Proof.
  intros HT HI.
  assert (vrnt.is_any_pack T Ts ≠ Some true) as Hany.
  { destruct Ts as [|T0 Ts']; [done|]. simpl. intros [= H0].
    by apply is_any_elem_of in H0. }
  assert (vrnt.IFromType_pack T Ts = None) as Hnone.
  { destruct Ts as [|T0 Ts']; [done|]. by apply IFromType_None. }
  assert ((I' <? length Ts) = false) as Hlt by by apply Nat.ltb_ge.
  unfold assign_value, noexcept, emplace, get, get_if, holds_alternative, get_I,
    get_if_I, bind, enable_if, constant. rewrite Hnone, Hlt.
  by destruct (vrnt.is_any_pack T Ts) as [[|]|].
Qed.

End Variant_more.

(** ** The further properties on the concrete program *)

Section demo_more.
#[local] Existing Instance demo.

Lemma instantiated_buffer_fits_all_witness :
  2 ≤ length (Ts (instantiation:=demo)) ∧ NoDup (Ts (instantiation:=demo)) ∧
  (∃ T, T ∈ Ts (instantiation:=demo) ∧ 32%Z = demo_sizeof T) ∧
  (∀ T, T ∈ Ts (instantiation:=demo) → (demo_sizeof T ≤ 32)%Z) ∧
  (∀ T : cxx_type, vrnt.Variant_instantiate demo_sizeof [T] = None).
Proof.
  apply (instantiated_buffer_fits_all demo_sizeof (Ts (instantiation:=demo)) 32).
  reflexivity.
Defined.

Lemma default_construction_is_valueless_witness :
  ∃ s', Variant_default 2 demo_int = Ret () s' ∧
        trace s' = trace demo_int ∧
        valueless 2 s' = Ret true s' ∧
        index 2 s' = Ret s_Valueless s' ∧
        (∀ T, vrnt.is_any_pack T Ts = Some true →
              (∃ msg, get T 2 s' = Throw (bad_variant_access msg) s') ∧
              get_if T 2 s' = Ret None s' ∧
              holds_alternative T 2 s' = Ret false s') ∧
        destroy 2 s' = Ret () demo_int.
Proof.
  apply (default_construction_is_valueless (W:=demo) 2 demo_int).
  - unfold pack_fits, s_Valueless. simpl. lia.
  - reflexivity.
Defined.

Lemma copy_assignment_destroys_then_copies_witness :
  ∃ s', assign_copy 2 1 demo_pair = Ret () s' ∧
        heap s' !! 2%N = Some (mkVariant (Live c_string "hi") (N.of_nat 1)) ∧
        heap s' !! 1%N = Some (mkVariant (Live c_string "hi") 1) ∧
        trace s' = trace demo_pair ++ destroyed 2 (Some (c_int, "42"))
                     ++ [Constructed 2 c_string "hi"].
Proof.
  apply (copy_assignment_destroys_then_copies (W:=demo) 2 1 demo_pair
           (mkVariant (W:=demo) (Live c_int "42") 0) (Some (c_int, "42"))
           (mkVariant (W:=demo) (Live c_string "hi") 1) 1 c_string "hi" "hi").
  - reflexivity.
  - unfold pack_fits, s_Valueless. simpl. lia.
  - lia.
  - reflexivity.
  - exists 0. repeat split; reflexivity.
  - reflexivity.
  - repeat split; reflexivity.
  - reflexivity.
Defined.

Lemma assignment_from_valueless_clears_witness :
  ∃ s', assign_copy 1 2 demo_fragile = Ret () s' ∧
        assign_move 1 2 demo_fragile = Ret () s' ∧
        heap s' !! 1%N
          = Some (mkVariant
                    (vacated (mkVariant (Live c_fragile "f") 3) (Some (c_fragile, "f")))
                    s_Valueless) ∧
        valueless 1 s' = Ret true s' ∧
        trace s' = trace demo_fragile ++ destroyed 1 (Some (c_fragile, "f")).
Proof.
  apply (assignment_from_valueless_clears (W:=demo) 1 2 demo_fragile
           (mkVariant (W:=demo) (Live c_fragile "f") 3) (Some (c_fragile, "f"))
           (mkVariant (W:=demo) Raw s_Valueless)).
  - reflexivity.
  - unfold pack_fits, s_Valueless. simpl. lia.
  - reflexivity.
  - exists 3. repeat split; reflexivity.
  - reflexivity.
  - reflexivity.
Defined.

Lemma move_assignment_transfers_witness :
  ∃ s', assign_move 2 1 demo_pair = Ret () s' ∧
        heap s' !! 2%N = Some (mkVariant (Live c_string "hi") (N.of_nat 1)) ∧
        heap s' !! 1%N = Some (mkVariant (Live c_string "") s_Valueless) ∧
        valueless 1 s' = Ret true s' ∧
        trace s' = trace demo_pair ++ destroyed 2 (Some (c_int, "42"))
                     ++ [Constructed 2 c_string "hi"].
Proof.
  apply (move_assignment_transfers (W:=demo) 2 1 demo_pair
           (mkVariant (W:=demo) (Live c_int "42") 0) (Some (c_int, "42"))
           (mkVariant (W:=demo) (Live c_string "hi") 1) 1 c_string "hi" "hi" "").
  - reflexivity.
  - unfold pack_fits, s_Valueless. simpl. lia.
  - lia.
  - reflexivity.
  - exists 0. repeat split; reflexivity.
  - reflexivity.
  - repeat split; reflexivity.
  - reflexivity.
Defined.


Lemma noexcept_members_terminate_on_failure_witness :
  assign_move 2 1 demo_fragile = Fault std_terminate ∧
  assign_value c_fragile rvalue (Buffer 1) 2 demo_fragile = Fault std_terminate ∧
  Variant_move 3 1 demo_fragile = Fault std_terminate.
Proof.
  apply (noexcept_members_terminate_on_failure (W:=demo) 2 1 3 demo_fragile
           (mkVariant (W:=demo) Raw s_Valueless) None
           (mkVariant (W:=demo) (Live c_fragile "f") 3) 3 c_fragile "f" "fragile").
  - reflexivity.
  - unfold pack_fits, s_Valueless. simpl. lia.
  - lia.
  - reflexivity.
  - reflexivity.
  - reflexivity.
  - repeat split; reflexivity.
  - reflexivity.
  - reflexivity.
Defined.

Lemma self_copy_assignment_rebuilds_witness :
  ∃ s', assign_copy 1 1 demo_string = Ret () s' ∧
        heap s' !! 1%N = Some (mkVariant (Live c_string "hi") (N.of_nat 1)) ∧
        trace s' = trace demo_string
                     ++ [Destroyed 1 c_string "hi"; Constructed 1 c_string "hi"].
Proof.
  apply (self_copy_assignment_rebuilds (W:=demo) 1 demo_string
           (mkVariant (W:=demo) (Live c_string "hi") 1) 1 c_string "hi" "hi").
  - reflexivity.
  - unfold pack_fits, s_Valueless. simpl. lia.
  - reflexivity.
  - repeat split; reflexivity.
  - reflexivity.
Defined.

Lemma destruction_destroys_held_value_witness :
  ∃ s', destroy 1 demo_pair = Ret () s' ∧
        heap s' !! 1%N = None ∧
        (∀ p, p ≠ 1%N → heap s' !! p = heap demo_pair !! p) ∧
        trace s' = trace demo_pair ++ destroyed 1 (Some (c_string, "hi")).
Proof.
  apply (destruction_destroys_held_value (W:=demo) 1 demo_pair
           (mkVariant (W:=demo) (Live c_string "hi") 1) (Some (c_string, "hi"))).
  - reflexivity.
  - unfold pack_fits, s_Valueless. simpl. lia.
  - reflexivity.
  - exists 1. repeat split; reflexivity.
Defined.

Lemma moved_from_object_is_never_destroyed_witness :
  ∃ s1 s2,
    Variant_move 2 1 demo_string = Ret () s1 ∧
    heap s1 !! 1%N = Some (mkVariant (Live c_string "") s_Valueless) ∧
    destroy 1 s1 = Ret () s2 ∧
    heap s2 !! 1%N = None ∧
    trace s2 = trace demo_string ++ [Constructed 2 c_string "hi"].
Proof.
  apply (moved_from_object_is_never_destroyed (W:=demo) 1 2 demo_string
           (mkVariant (W:=demo) (Live c_string "hi") 1) 1 c_string "hi" "").
  - reflexivity.
  - unfold pack_fits, s_Valueless. simpl. lia.
  - reflexivity.
  - repeat split; reflexivity.
  - reflexivity.
  - reflexivity.
Defined.

Lemma typed_and_indexed_access_agree_witness :
  get_I 1 1 demo_int = get c_string 1 demo_int ∧
  get_if_I 1 1 demo_int = get_if c_string 1 demo_int.
Proof.
  apply (typed_and_indexed_access_agree (W:=demo) c_string 1 1 demo_int).
  reflexivity.
Defined.

Lemma demo_failed_reachable_catching : reachable_catching demo_failed.
Proof.
  apply (catching_caught demo_int
           (call_emplace (W:=demo) c_string (Direct (W:=demo) (-1)%Z) 1)
           (alternative_failure (W:=demo) "length_error")).
  - apply (catching_call initial
             (call_value (W:=demo) c_int lvalue (External (W:=demo) c_int "42") 1)).
    + apply catching_initial.
    + vm_compute. reflexivity.
  - vm_compute. reflexivity.
Defined.

Lemma discriminant_always_indexes_tables_witness :
  discriminant_ok (mkVariant (Dead c_int "42") 1) ∧
  (1%N ≠ s_Valueless →
   is_Some (s_Destructors !! N.to_nat 1) ∧
   is_Some (s_CopyAssigns !! N.to_nat 1) ∧
   is_Some (s_MoveAssigns !! N.to_nat 1)).
Proof.
  apply (discriminant_always_indexes_tables (W:=demo) demo_failed 1
           (mkVariant (W:=demo) (Dead c_int "42") 1)).
  - unfold pack_fits, s_Valueless. simpl. lia.
  - exact demo_failed_reachable_catching.
  - reflexivity.
Defined.

Lemma copy_then_destroy_round_trip_witness :
  ∃ s1 s2,
    Variant_copy 2 1 demo_string = Ret () s1 ∧
    destroy 2 s1 = Ret () s2 ∧
    heap s2 = heap demo_string ∧
    trace s2 = trace demo_string
                 ++ [Constructed 2 c_string "hi"; Destroyed 2 c_string "hi"].
Proof.
  apply (copy_then_destroy_round_trip (W:=demo) 1 2 demo_string
           (mkVariant (W:=demo) (Live c_string "hi") 1) 1 c_string "hi" "hi").
  - reflexivity.
  - unfold pack_fits, s_Valueless. simpl. lia.
  - reflexivity.
  - repeat split; reflexivity.
  - reflexivity.
  - reflexivity.
Defined.

Lemma exactly_one_alternative_reported_witness :
  (0%N = s_Valueless →
   ∀ T, vrnt.is_any_pack T Ts = Some true →
        holds_alternative T 1 demo_int = Ret false demo_int) ∧
  (0%N ≠ s_Valueless →
   ∃ T, Ts !! N.to_nat 0 = Some T ∧
        holds_alternative T 1 demo_int = Ret true demo_int ∧
        ∀ U, holds_alternative U 1 demo_int = Ret true demo_int → U = T).
Proof.
  apply (exactly_one_alternative_reported (W:=demo) 1 demo_int
           (mkVariant (W:=demo) (Live c_int "42") 0)).
  - reflexivity.
  - unfold pack_fits, s_Valueless. simpl. lia.
  - reflexivity.
  - right. simpl. lia.
Defined.

Lemma access_outside_pack_is_ill_formed_witness :
  get c_bool 1 demo_int = Fault ill_formed ∧
  get_if c_bool 1 demo_int = Fault ill_formed ∧
  holds_alternative c_bool 1 demo_int = Fault ill_formed ∧
  emplace c_bool (Direct (W:=demo) 1%Z) 1 demo_int = Fault ill_formed ∧
  assign_value c_bool lvalue (External c_bool "1") 1 demo_int = Fault ill_formed ∧
  get_I 4 1 demo_int = Fault ill_formed ∧
  get_if_I 4 1 demo_int = Fault ill_formed.
Proof.
  apply (access_outside_pack_is_ill_formed (W:=demo) c_bool 4 lvalue
           (External (W:=demo) c_bool "1") (Direct (W:=demo) 1%Z) 1 demo_int).
  - unfold Ts. simpl. rewrite !elem_of_cons, elem_of_nil.
    intros [H|[H|[H|[H|[]]]]]; discriminate H.
  - simpl. lia.
Defined.

End demo_more.
